(** * Bodicise front end: the API client pipeline, its TTL cache, the retry
    helper and the Luhn validator, embedded from
    [assets/js/api-client.js] (class [ApiClient]) and from the utility
    library (class [Utils]). *)

From Stdlib Require Import ZArith Lia Ascii.
From Equations Require Import Equations.
From stdpp Require Import gmap strings list fin_maps pretty.

Set Warnings "-register-all".
Open Scope Z_scope.

(** ** JavaScript values and completions *)

Module JS.

(** The values the client handles.  Numbers are the integers (status
    codes, millisecond clocks); objects are finite maps from property
    names to values. *)
Inductive value : Type :=
| VUndefined
| VNull
| VBool (b : bool)
| VNum (n : Z)
| VStr (s : string)
| VObj (o : gmap string value).

(** [ToBoolean]. *)
Definition truthy (v : value) : bool :=
  match v with
  | VUndefined | VNull => false
  | VBool b => b
  | VNum n => negb (n =? 0)
  | VStr s => negb (String.eqb s "")
  | VObj _ => true
  end.

(** Result of a synchronous step: a normal completion carrying a result,
    or a thrown value. *)
Inductive completion (A : Type) : Type :=
| Normal (a : A)
| Throw (e : value).
Arguments Normal {A} a.
Arguments Throw {A} e.

(** A settled promise, the result of an [async] function. *)
Inductive settled : Type :=
| Resolved (v : value)
| Rejected (e : value).

(** What a callback whose result is [return]ed from an [async] function
    can do: return a value (or a promise resolving to it), return a
    rejected promise, or throw synchronously. *)
Inductive cb_result : Type :=
| CbReturn (v : value)
| CbReject (e : value)
| CbThrow (e : value).

Definition TypeError (msg : string) : value :=
  VObj {[ "name"%string := VStr "TypeError"; "message"%string := VStr msg ]}.

(** [v.k]: reading a property of [undefined] or [null] throws, a
    primitive has none of the properties read here. *)
Definition get_prop (v : value) (k : string) : completion value :=
  match v with
  | VUndefined | VNull =>
      Throw (TypeError ("Cannot read properties of undefined (reading '" +:+ k +:+ "')"))
  | VObj o => Normal (default VUndefined (o !! k))
  | _ => Normal VUndefined
  end.

(** [v?.k]. *)
Definition get_prop_opt (v : value) (k : string) : value :=
  match v with
  | VObj o => default VUndefined (o !! k)
  | _ => VUndefined
  end.

(** [v.k = x] in strict code; the object is returned updated. *)
Definition set_prop (v : value) (k : string) (x : value) : completion value :=
  match v with
  | VObj o => Normal (VObj (<[k:=x]> o))
  | _ => Throw (TypeError ("Cannot set property '" +:+ k +:+ "'"))
  end.

(** [===] against a number literal. *)
Definition strict_eq_num (v : value) (n : Z) : bool :=
  match v with
  | VNum m => m =? n
  | _ => false
  end.

(** A variable binding: [const] or [let]. *)
Inductive decl : Type := Const | Let.

Record binding : Type := { b_decl : decl; b_val : value }.

(** [x = v]: the right-hand side has been evaluated to [v]; putting it
    into a [const] binding throws a [TypeError] (the message is V8's). *)
Definition assign (b : binding) (v : value) : completion binding :=
  match b_decl b with
  | Const => Throw (TypeError "Assignment to constant variable.")
  | Let => Normal {| b_decl := Let; b_val := v |}
  end.

(** [hay.includes(needle)]. *)
Fixpoint includes (hay needle : string) : bool :=
  if String.prefix needle hay then true
  else match hay with
       | EmptyString => false
       | String _ rest => includes rest needle
       end.

End JS.

(** ** Utils.isValidCreditCard *)

Module Utils.

(** [\d]: the decimal digits. *)
Definition is_digit (c : ascii) : bool :=
  let n := nat_of_ascii c in ((48 <=? n) && (n <=? 57))%nat.

(** [cardNumber.replace(/\D/g, '')]. *)
Fixpoint strip_non_digits (s : string) : list ascii :=
  match s with
  | EmptyString => []
  | String c rest =>
      if is_digit c then c :: strip_non_digits rest else strip_non_digits rest
  end.

(** [parseInt] of one character: its value for a digit, [NaN] ([None])
    otherwise. *)
Definition parseInt (c : option ascii) : option Z :=
  match c with
  | Some c => if is_digit c then Some (Z.of_nat (nat_of_ascii c) - 48) else None
  | None => None
  end.

(** One turn of the loop body on [digits[i]]. *)
Definition luhn_digit (isEven : bool) (digit : Z) : Z :=
  if isEven then
    let digit := digit * 2 in
    if digit >? 9 then digit - 9 else digit
  else digit.

(** [for (let i = digits.length - 1; i >= 0; i--)]: [n] is [i + 1].
    The sum is [None] once a [NaN] has been added. *)
Fixpoint luhn_loop (digits : list ascii) (n : nat) (sum : option Z) (isEven : bool)
  : option Z :=
  match n with
  | O => sum
  | S i =>
      let digit := luhn_digit isEven <$> parseInt (digits !! i) in
      let sum := match sum, digit with
                 | Some s, Some d => Some (s + d)
                 | _, _ => None
                 end in
      luhn_loop digits i sum (negb isEven)
  end.

Definition isValidCreditCard (cardNumber : string) : bool :=
  let digits := strip_non_digits cardNumber in
  match luhn_loop digits (length digits) (Some 0) false with
  | Some sum => sum mod 10 =? 0
  | None => false
  end.

(** *** Strings and arrays of the other utilities

    The string utilities below take a string as the list of its code
    units. *)

(** A relative index of [slice]: negative counts from the end, and the
    result is kept within [0 .. len]. *)
Definition relative_index (len k : Z) : Z :=
  if k <? 0 then Z.max (len + k) 0 else Z.min k len.

(** [s.slice(begin, end)], for arrays and strings alike. *)
Definition slice {A : Type} (s : list A) (begin_ end_ : Z) : list A :=
  let len := Z.of_nat (length s) in
  let from := relative_index len begin_ in
  let to := relative_index len end_ in
  take (Z.to_nat (to - from)) (drop (Z.to_nat from) s).

(** [s.slice(begin)]. *)
Definition slice_from {A : Type} (s : list A) (begin_ : Z) : list A :=
  slice s begin_ (Z.of_nat (length s)).

(** [str.substring(start, end)]: both ends are kept within [0 .. len] and
    swapped when out of order. *)
Definition substring {A : Type} (str : list A) (start end_ : Z) : list A :=
  let len := Z.of_nat (length str) in
  let a := Z.min (Z.max start 0) len in
  let b := Z.min (Z.max end_ 0) len in
  take (Z.to_nat (Z.max a b - Z.min a b)) (drop (Z.to_nat (Z.min a b)) str).

(** [Math.min(Math.max(value, min), max)], on integers. *)
Definition clamp (value min max : Z) : Z := Z.min (Z.max value min) max.

(** [truncate(str, length, suffix = '...')]. *)
Definition truncate (str : list ascii) (length : Z) (suffix : option (list ascii))
  : list ascii :=
  let suffix := default (String.list_ascii_of_string "...") suffix in
  if Z.of_nat (List.length str) <=? length then str
  else substring str 0 (length - Z.of_nat (List.length suffix)) ++ suffix.

(** [str.lastIndexOf(c)] for a one-character [c]: [-1] when absent. *)
Fixpoint lastIndexOf_from (c : ascii) (str : list ascii) (i : Z) (found : Z) : Z :=
  match str with
  | [] => found
  | x :: rest => lastIndexOf_from c rest (i + 1) (if Ascii.eqb x c then i else found)
  end.

Definition lastIndexOf (str : list ascii) (c : ascii) : Z :=
  lastIndexOf_from c str 0 (-1).

(** [n >>> 0]: the unsigned 32-bit integer of [n]. *)
Definition to_uint32 (n : Z) : Z := n mod 2 ^ 32.

(** [filename.slice((filename.lastIndexOf('.') - 1 >>> 0) + 2)]. *)
Definition getFileExtension (filename : list ascii) : list ascii :=
  slice_from filename (to_uint32 (lastIndexOf filename "."%char - 1) + 2).

(** [chunk(array, size)]: the loop
    [for (let i = 0; i < array.length; i += size) chunks.push(array.slice(i, i + size))]
    from [i] on, at most [fuel] turns of it; [None] when the loop has not
    ended by then. *)
Fixpoint chunk_loop {A : Type} (fuel : nat) (array : list A) (size i : Z)
    (chunks : list (list A)) : option (list (list A)) :=
  if i <? Z.of_nat (length array) then
    match fuel with
    | O => None
    | S fuel' =>
        chunk_loop fuel' array size (i + size) (chunks ++ [slice array i (i + size)])
    end
  else Some chunks.

Definition chunk {A : Type} (fuel : nat) (array : list A) (size : Z)
  : option (list (list A)) :=
  chunk_loop fuel array size 0 [].

(** *** Sets and shuffling *)

Section Collections.

(** Elements compared as a [Set] compares primitives. *)
Context {A : Type} `{EqDecision A}.

(** [set.add(x)] on a [Set] kept as the list of its elements in insertion
    order. *)
Definition set_add (set : list A) (x : A) : list A :=
  if decide (x ∈ set) then set else set ++ [x].

(** [[...new Set(array)]]. *)
Definition unique (array : list A) : list A := fold_left set_add array [].

(** [findDuplicates]: the state is the pair of sets [(seen, duplicates)]. *)
Definition findDuplicates_step (state : list A * list A) (item : A) : list A * list A :=
  let '(seen, duplicates) := state in
  if decide (item ∈ seen) then (seen, set_add duplicates item)
  else (set_add seen item, duplicates).

Definition findDuplicates (array : list A) : list A :=
  (fold_left findDuplicates_step array ([], [])).2.

(** [[a[i], a[j]] = [a[j], a[i]]], for [i] and [j] within the array. *)
Definition swap (a : list A) (i j : nat) : list A :=
  match a !! i, a !! j with
  | Some x, Some y => <[j := x]> (<[i := y]> a)
  | _, _ => a
  end.

(** The random source: [Math.floor(Math.random() * n)] is some number
    below [n]; the [call]-th draw is taken as [rng call mod n]. *)
Definition random_below (rng : nat -> nat) (call n : nat) : nat := rng call mod n.

(** [for (let i = shuffled.length - 1; i > 0; i--)] from [i] down. *)
Fixpoint shuffle_loop (rng : nat -> nat) (call : nat) (shuffled : list A) (i : nat)
  : list A :=
  match i with
  | O => shuffled
  | S i' =>
      let j := random_below rng call (i + 1) in
      shuffle_loop rng (S call) (swap shuffled i j) i'
  end.

Definition shuffle (rng : nat -> nat) (array : list A) : list A :=
  shuffle_loop rng 0 array (length array - 1).

End Collections.

(** *** Hexadecimal digits, colours and identifiers *)

(** The digit of [n.toString(16)] for [n] in 0..15. *)
Definition hex_digit (n : Z) : ascii :=
  if n <? 10 then ascii_of_nat (Z.to_nat (48 + n)) else ascii_of_nat (Z.to_nat (87 + n)).

(** The value of a character of [[a-f\d]] under the [i] flag. *)
Definition hex_value (c : ascii) : option Z :=
  let n := Z.of_nat (nat_of_ascii c) in
  if (48 <=? n) && (n <=? 57) then Some (n - 48)
  else if (97 <=? n) && (n <=? 102) then Some (n - 87)
  else if (65 <=? n) && (n <=? 70) then Some (n - 55)
  else None.

(** The digits of a non-negative [n] in base 16, most significant first,
    before [acc]. *)
Fixpoint to_hex_digits (fuel : nat) (n : Z) (acc : list ascii) : list ascii :=
  match fuel with
  | O => acc
  | S fuel' =>
      let acc' := hex_digit (n mod 16) :: acc in
      if n / 16 =? 0 then acc' else to_hex_digits fuel' (n / 16) acc'
  end.

(** [x.toString(16)] for an integer [x]. *)
Definition toString16 (x : Z) : list ascii :=
  if x <? 0 then "-"%char :: to_hex_digits (Z.to_nat (- x)) (- x) []
  else to_hex_digits (S (Z.to_nat x)) x [].

Definition rgbToHex (r g b : Z) : list ascii :=
  "#"%char ::
  concat (map (fun x => let hex := toString16 x in
                        if (length hex =? 1)%nat then "0"%char :: hex else hex)
              [r; g; b]).

(** [hexToRgb]: the pattern is an optional [#] and six hexadecimal digits;
    [None] is [null]. *)
Definition hexToRgb (hex : list ascii) : option (Z * Z * Z) :=
  let digits := match hex with
                | c :: rest => if Ascii.eqb c "#" then rest else hex
                | [] => hex
                end in
  match digits with
  | [r1; r2; g1; g2; b1; b2] =>
      match hex_value r1, hex_value r2, hex_value g1, hex_value g2,
            hex_value b1, hex_value b2 with
      | Some r1, Some r2, Some g1, Some g2, Some b1, Some b2 =>
          Some (16 * r1 + r2, 16 * g1 + g2, 16 * b1 + b2)
      | _, _, _, _, _, _ => None
      end
  | _ => None
  end.

(** [getContrastColor]: the brightness test [(299 r + 587 g + 114 b) / 1000 > 128]
    on integers. *)
Definition getContrastColor (hexColor : list ascii) : list ascii :=
  match hexToRgb hexColor with
  | None => String.list_ascii_of_string "#000000"
  | Some (r, g, b) =>
      if r * 299 + g * 587 + b * 114 >? 128 * 1000
      then String.list_ascii_of_string "#000000"
      else String.list_ascii_of_string "#ffffff"
  end.

(** [generateUUID]: each [x] or [y] of the template is replaced, left to
    right, with a digit made from a fresh draw [Math.random() * 16 | 0]. *)
Fixpoint uuid_replace (rng : nat -> nat) (call : nat) (template : list ascii)
  : list ascii :=
  match template with
  | [] => []
  | c :: rest =>
      if Ascii.eqb c "x" || Ascii.eqb c "y" then
        let r := Z.of_nat (random_below rng call 16) in
        let v := if Ascii.eqb c "x" then r else Z.lor (Z.land r 3) 8 in
        hex_digit v :: uuid_replace rng (S call) rest
      else c :: uuid_replace rng call rest
  end.

Definition generateUUID (rng : nat -> nat) : list ascii :=
  uuid_replace rng 0 (String.list_ascii_of_string "xxxxxxxx-xxxx-4xxx-yxxx-xxxxxxxxxxxx").

(** *** Relative time *)

(** [`${n} ${unit}${n > 1 ? 's' : ''} ago`]. *)
Definition ago (n : Z) (unit : string) : string :=
  pretty n +:+ " " +:+ unit +:+ (if n >? 1 then "s" else "") +:+ " ago".

(** [getRelativeTime(date)] when the clock reads [now]; both are
    milliseconds since the epoch. *)
Definition getRelativeTime (now date : Z) : string :=
  let diffInSeconds := (now - date) / 1000 in
  if diffInSeconds <? 60 then "just now"
  else if diffInSeconds <? 3600 then ago (diffInSeconds / 60) "minute"
  else if diffInSeconds <? 86400 then ago (diffInSeconds / 3600) "hour"
  else if diffInSeconds <? 2592000 then ago (diffInSeconds / 86400) "day"
  else if diffInSeconds <? 31536000 then ago (diffInSeconds / 2592000) "month"
  else ago (diffInSeconds / 31536000) "year".

(** *** Storage utilities *)

Section Storage.

Import JS.

(** [JSON.stringify] and [JSON.parse]; either may throw. *)
Variable JSON_stringify : value -> completion string.
Variable JSON_parse : string -> completion value.

(** Whether [localStorage.setItem(key, text)] throws (quota exceeded). *)
Variable setItem_throws : string -> string -> bool.

(** [ToNumber] on strings and objects; [None] is [NaN]. *)
Variable ToNumber : value -> option Z.

(** [now > v]. *)
Definition now_after (now : Z) (v : value) : bool :=
  match v with
  | VNum n => now >? n
  | VBool b => now >? (if b then 1 else 0)
  | VNull => now >? 0
  | VUndefined => false
  | _ => match ToNumber v with Some n => now >? n | None => false end
  end.

(** The record [{ value, timestamp, expiration }] that [setStorage] stores:
    the clock reads [now] for the timestamp and [now'] for the expiration;
    an omitted, [null] or zero expiration gives [null]. *)
Definition storage_data (v : value) (expiration : option Z) (now now' : Z) : value :=
  VObj {[ "value"%string := v;
          "timestamp"%string := VNum now;
          "expiration"%string :=
            match expiration with
            | Some e => if truthy (VNum e) then VNum (now' + e) else VNull
            | None => VNull
            end ]}.

(** [setStorage(key, value, expiration = null)]. *)
Definition setStorage (key : string) (v : value) (expiration : option Z) (now now' : Z)
    (localStorage : gmap string string) : gmap string string :=
  match JSON_stringify (storage_data v expiration now now') with
  | Throw _ => localStorage
  | Normal text =>
      if setItem_throws key text then localStorage else <[key := text]> localStorage
  end.

(** [getStorage(key)] when the clock reads [now]. *)
Definition getStorage (key : string) (now : Z) (localStorage : gmap string string)
  : value * gmap string string :=
  match localStorage !! key with
  | None => (VNull, localStorage)
  | Some data =>
      if negb (truthy (VStr data)) then (VNull, localStorage)
      else
        match JSON_parse data with
        | Throw _ => (VNull, localStorage)
        | Normal parsed =>
            match get_prop parsed "expiration" with
            | Throw _ => (VNull, localStorage)
            | Normal expiration =>
                if truthy expiration && now_after now expiration
                then (VNull, delete key localStorage)
                else
                  match get_prop parsed "value" with
                  | Throw _ => (VNull, localStorage)
                  | Normal v => (v, localStorage)
                  end
            end
        end
  end.

Definition removeStorage (key : string) (localStorage : gmap string string)
  : gmap string string :=
  delete key localStorage.

Definition clearStorage (localStorage : gmap string string) : gmap string string := ∅.

End Storage.

End Utils.

(** ** ApiClient *)

Module ApiClient.
Import JS.

(** An entry of [ApiClient.cache]. *)
Record cacheEntry : Type := { data : value; timestamp : Z; timeout : Z }.

(** The static fields of the class other than the interceptor lists,
    together with the browser state the class touches.  Interceptors are
    closures over this state. *)
Record store : Type := {
  baseUrl : string;
  authToken : option string;
  cache : gmap string cacheEntry;
  localStorage : gmap string string;
  location_href : string
}.

Definition set_baseUrl (u : string) (s : store) : store :=
  {| baseUrl := u; authToken := authToken s; cache := cache s;
     localStorage := localStorage s; location_href := location_href s |}.
Definition set_authToken (t : option string) (s : store) : store :=
  {| baseUrl := baseUrl s; authToken := t; cache := cache s;
     localStorage := localStorage s; location_href := location_href s |}.
Definition set_cache (m : gmap string cacheEntry) (s : store) : store :=
  {| baseUrl := baseUrl s; authToken := authToken s; cache := m;
     localStorage := localStorage s; location_href := location_href s |}.
Definition set_localStorage (m : gmap string string) (s : store) : store :=
  {| baseUrl := baseUrl s; authToken := authToken s; cache := cache s;
     localStorage := m; location_href := location_href s |}.
Definition set_location_href (h : string) (s : store) : store :=
  {| baseUrl := baseUrl s; authToken := authToken s; cache := cache s;
     localStorage := localStorage s; location_href := h |}.

(** A request interceptor: called with the config, returns a config or
    throws.  Interceptors and callbacks act on the [store]; one that
    registers a further interceptor while a call is in flight is not
    represented. *)
Definition requestInterceptor : Type := store -> value -> completion value * store.

(** A response callback; its result is [return]ed by [request]. *)
Definition callback : Type := store -> value -> cb_result * store.

(** [{ onFulfilled, onRejected }]; an omitted callback is [undefined]. *)
Record responseInterceptor : Type := {
  onFulfilled : option callback;
  onRejected : option callback
}.

Record client : Type := {
  st : store;
  requestInterceptors : list requestInterceptor;
  responseInterceptors : list responseInterceptor
}.

Definition with_st (s : store) (c : client) : client :=
  {| st := s; requestInterceptors := requestInterceptors c;
     responseInterceptors := responseInterceptors c |}.

(** What a run of [request] did, in order: the interceptors are named by
    their position in their list. *)
Inductive event : Type :=
| EvRequestInterceptor (k : nat) (config : value)
| EvFetch (url : string) (config : value)
| EvOnFulfilled (k : nat) (response : value)
| EvOnRejected (k : nat) (error : value).

(** The transport's [Response]: [r_json] and [r_text] are the outcomes of
    [response.json()] and [response.text()]. *)
Record Response : Type := {
  r_status : Z;
  r_statusText : string;
  r_headers : gmap string string;
  r_ok : bool;
  r_json : completion value;
  r_text : completion value
}.

(** [await fetch(url, config)]. *)
Inductive fetched : Type :=
| Fetched (r : Response)
| FetchFailed (e : value).

Definition network : Type := string -> value -> fetched.

Definition defaultHeaders : gmap string value :=
  {[ "Content-Type"%string := VStr "application/json";
     "Accept"%string := VStr "application/json" ]}.

Definition addRequestInterceptor (interceptor : requestInterceptor) (c : client) : client :=
  {| st := st c; requestInterceptors := requestInterceptors c ++ [interceptor];
     responseInterceptors := responseInterceptors c |}.

Definition addResponseInterceptor (onFulfilled onRejected : option callback) (c : client)
  : client :=
  {| st := st c; requestInterceptors := requestInterceptors c;
     responseInterceptors :=
       responseInterceptors c ++ [{| onFulfilled := onFulfilled; onRejected := onRejected |}] |}.

Definition setBaseUrl (url : string) (c : client) : client :=
  with_st (set_baseUrl url (st c)) c.

(** The [{ method: 'GET', headers: { ...defaultHeaders }, ...options }]
    literal: the properties of [options] replace those written before. *)
Definition initial_config (options : gmap string value) : gmap string value :=
  options ∪ {[ "method"%string := VStr "GET"; "headers"%string := VObj defaultHeaders ]}.

(** [for (const interceptor of this.requestInterceptors)
      config = interceptor(config);] *)
Fixpoint apply_request_interceptors (interceptors : list requestInterceptor) (k : nat)
    (config : binding) (s : store) : completion binding * store * list event :=
  match interceptors with
  | [] => (Normal config, s, [])
  | interceptor :: rest =>
      let ev := EvRequestInterceptor k (b_val config) in
      let '(r, s1) := interceptor s (b_val config) in
      match r with
      | Throw e => (Throw e, s1, [ev])
      | Normal v =>
          match assign config v with
          | Throw e => (Throw e, s1, [ev])
          | Normal config' =>
              let '(r', s2, tr) := apply_request_interceptors rest (S k) config' s1 in
              (r', s2, ev :: tr)
          end
      end
  end.

(** The body is parsed by the [content-type] response header. *)
Definition parse_body (r : Response) : completion value :=
  match r_headers r !! "content-type"%string with
  | Some contentType =>
      if truthy (VStr contentType) && includes contentType "application/json"
      then r_json r else r_text r
  | None => r_text r
  end.

Definition responseObj (r : Response) (d : value) : value :=
  VObj {[ "data"%string := d;
          "status"%string := VNum (r_status r);
          "statusText"%string := VStr (r_statusText r);
          "headers"%string := VObj (VStr <$> r_headers r);
          "ok"%string := VBool (r_ok r) ]}.

(** The [try] block up to the response object. *)
Definition fetch_phase (net : network) (url : string) (config : value) : completion value :=
  match net url config with
  | FetchFailed e => Throw e
  | Fetched r =>
      match parse_body r with
      | Throw e => Throw e
      | Normal d => Normal (responseObj r d)
      end
  end.

(** [for (const interceptor of this.responseInterceptors)
      if (interceptor.onFulfilled) return interceptor.onFulfilled(responseObj);
    return responseObj;] *)
Fixpoint fulfilled_loop (interceptors : list responseInterceptor) (k : nat)
    (response : value) (s : store) : cb_result * store * list event :=
  match interceptors with
  | [] => (CbReturn response, s, [])
  | interceptor :: rest =>
      match onFulfilled interceptor with
      | Some f => let '(r, s') := f s response in (r, s', [EvOnFulfilled k response])
      | None => fulfilled_loop rest (S k) response s
      end
  end.

(** How an [async] function settles on [return f(x)] outside any
    enclosing [try]. *)
Definition settle (r : cb_result) : settled :=
  match r with
  | CbReturn v => Resolved v
  | CbReject e => Rejected e
  | CbThrow e => Rejected e
  end.

(** The [catch (error)] block. *)
Fixpoint catch_block (interceptors : list responseInterceptor) (k : nat)
    (error : value) (s : store) : settled * store * list event :=
  match interceptors with
  | [] => (Rejected error, s, [])
  | interceptor :: rest =>
      match onRejected interceptor with
      | Some f => let '(r, s') := f s error in (settle r, s', [EvOnRejected k error])
      | None => catch_block rest (S k) error s
      end
  end.

(** [request], with the declaration of [config] as a parameter; the
    source declares it [const]. *)
Definition request_with (d : decl) (c : client) (net : network) (endpoint : string)
    (options : gmap string value) : settled * store * list event :=
  let url := baseUrl (st c) +:+ endpoint in
  let config := {| b_decl := d; b_val := VObj (initial_config options) |} in
  match apply_request_interceptors (requestInterceptors c) 0 config (st c) with
  | (Throw e, s1, tr1) => (Rejected e, s1, tr1)
  | (Normal config, s1, tr1) =>
      let ev := EvFetch url (b_val config) in
      match fetch_phase net url (b_val config) with
      | Normal response =>
          let '(r, s2, tr2) := fulfilled_loop (responseInterceptors c) 0 response s1 in
          match r with
          | CbReturn v => (Resolved v, s2, tr1 ++ ev :: tr2)
          | CbReject e => (Rejected e, s2, tr1 ++ ev :: tr2)
          | CbThrow error =>
              let '(r', s3, tr3) := catch_block (responseInterceptors c) 0 error s2 in
              (r', s3, tr1 ++ ev :: tr2 ++ tr3)
          end
      | Throw error =>
          let '(r', s3, tr3) := catch_block (responseInterceptors c) 0 error s1 in
          (r', s3, tr1 ++ ev :: tr3)
      end
  end.

Definition request : client -> network -> string -> gmap string value ->
                     settled * store * list event :=
  request_with Const.

(** ** Cache management *)

Definition cacheTimeout : Z := 5 * 60 * 1000.

(** [setCache(key, data, timeout = this.cacheTimeout)] at [Date.now() = now]. *)
Definition setCache (key : string) (d : value) (timeout : option Z) (now : Z) (s : store)
  : store :=
  set_cache
    (<[key := {| data := d; timestamp := now; timeout := default cacheTimeout timeout |}]>
       (cache s)) s.

(** [getCache(key)] at [Date.now() = now]. *)
Definition getCache (key : string) (now : Z) (s : store) : value * store :=
  match cache s !! key with
  | None => (VNull, s)
  | Some cached =>
      if now - timestamp cached >? timeout cached
      then (VNull, set_cache (delete key (cache s)) s)
      else (data cached, s)
  end.

Definition clearCache (s : store) : store := set_cache ∅ s.

(** ** The collaborators found by name at run time *)

Section Globals.

(** [AuthController.logout], when [typeof AuthController !== 'undefined']. *)
Variable AuthController_logout : option (store -> store).

(** [JSON.stringify] and [new URLSearchParams(params).toString()]. *)
Variable JSON_stringify : value -> string.
Variable URLSearchParams_toString : value -> string.

Definition handleUnauthorized (s : store) : store :=
  let s := set_authToken None s in
  let s := set_localStorage (delete "authToken"%string (localStorage s)) s in
  let s := set_localStorage (delete "user"%string (localStorage s)) s in
  match AuthController_logout with
  | Some logout => logout s
  | None => set_location_href "../index.html" s
  end.

(** The request interceptor of [setupInterceptors]:
    [if (this.authToken) config.headers.Authorization = `Bearer ${this.authToken}`;
     return config;]
    The headers object is updated in place, so the returned config
    holds the updated headers. *)
Definition auth_interceptor : requestInterceptor := fun s config =>
  match authToken s with
  | Some token =>
      if truthy (VStr token) then
        match get_prop config "headers" with
        | Throw e => (Throw e, s)
        | Normal headers =>
            match set_prop headers "Authorization" (VStr ("Bearer " +:+ token)) with
            | Throw e => (Throw e, s)
            | Normal headers' => (set_prop config "headers" headers', s)
            end
        end
      else (Normal config, s)
  | None => (Normal config, s)
  end.

(** The response interceptor of [setupInterceptors]. *)
Definition builtin_onFulfilled : callback := fun s response => (CbReturn response, s).

Definition builtin_onRejected : callback := fun s error =>
  match get_prop error "response" with
  | Throw e => (CbThrow e, s)
  | Normal response =>
      let s' := if strict_eq_num (get_prop_opt response "status") 401
                then handleUnauthorized s else s in
      (CbReject error, s')
  end.

Definition builtin_interceptor : responseInterceptor :=
  {| onFulfilled := Some builtin_onFulfilled; onRejected := Some builtin_onRejected |}.

Definition setupInterceptors (c : client) : client :=
  let c := addRequestInterceptor auth_interceptor c in
  addResponseInterceptor (Some builtin_onFulfilled) (Some builtin_onRejected) c.

Definition init (c : client) : client :=
  let c := with_st (set_authToken (localStorage (st c) !! "authToken"%string) (st c)) c in
  setupInterceptors c.

(** A parameter declared [params = {}]. *)
Definition or_empty (params : value) : value :=
  match params with
  | VUndefined => VObj ∅
  | _ => params
  end.

Definition get (c : client) (net : network) (endpoint : string) (params : value)
  : settled * store * list event :=
  let queryString := URLSearchParams_toString (or_empty params) in
  let url := if truthy (VStr queryString)
             then endpoint +:+ "?" +:+ queryString else endpoint in
  request c net url {[ "method"%string := VStr "GET" ]}.

(** [cacheKey || `${endpoint}${JSON.stringify(params)}`]; [cacheKey]
    is [null] when omitted. *)
Definition cache_key (endpoint : string) (params : value) (cacheKey : option string)
  : string :=
  match cacheKey with
  | Some k => if truthy (VStr k) then k else endpoint +:+ JSON_stringify (or_empty params)
  | None => endpoint +:+ JSON_stringify (or_empty params)
  end.

(** [getWithCache]: the clock reads [now] in [getCache] and [now'] in
    [setCache], after the request has settled. *)
Definition getWithCache (c : client) (net : network) (endpoint : string) (params : value)
    (cacheKey : option string) (now now' : Z) : settled * store * list event :=
  let key := cache_key endpoint params cacheKey in
  let '(cached, s1) := getCache key now (st c) in
  if truthy cached then
    (Resolved (VObj {[ "data"%string := cached; "fromCache"%string := VBool true ]}), s1, [])
  else
    let '(r, s2, tr) := get (with_st s1 c) net endpoint params in
    match r with
    | Rejected e => (Rejected e, s2, tr)
    | Resolved response =>
        match get_prop response "data" with
        | Throw e => (Rejected e, s2, tr)
        | Normal d => (Resolved response, setCache key d None now' s2, tr)
        end
    end.

(** The calls a page can make on the class, and their effect on it. *)
Inductive op : Type :=
| OpInit
| OpSetBaseUrl (url : string)
| OpAddRequestInterceptor (interceptor : requestInterceptor)
| OpAddResponseInterceptor (onFulfilled onRejected : option callback)
| OpHandleUnauthorized
| OpRequest (net : network) (endpoint : string) (options : gmap string value)
| OpGet (net : network) (endpoint : string) (params : value)
| OpSetCache (key : string) (d : value) (timeout : option Z) (now : Z)
| OpGetCache (key : string) (now : Z)
| OpClearCache
| OpGetWithCache (net : network) (endpoint : string) (params : value)
    (cacheKey : option string) (now now' : Z).

Definition run_op (c : client) (o : op) : client :=
  match o with
  | OpInit => init c
  | OpSetBaseUrl url => setBaseUrl url c
  | OpAddRequestInterceptor interceptor => addRequestInterceptor interceptor c
  | OpAddResponseInterceptor onFulfilled onRejected =>
      addResponseInterceptor onFulfilled onRejected c
  | OpHandleUnauthorized => with_st (handleUnauthorized (st c)) c
  | OpRequest net endpoint options => with_st (request c net endpoint options).1.2 c
  | OpGet net endpoint params => with_st (get c net endpoint params).1.2 c
  | OpSetCache key d timeout now => with_st (setCache key d timeout now (st c)) c
  | OpGetCache key now => with_st (getCache key now (st c)).2 c
  | OpClearCache => with_st (clearCache (st c)) c
  | OpGetWithCache net endpoint params cacheKey now now' =>
      with_st (getWithCache c net endpoint params cacheKey now now').1.2 c
  end.

Definition run_ops (c : client) (ops : list op) : client := fold_left run_op ops c.

(** The class as its static initialisers leave it, in a browser whose
    storage holds [ls] and whose location is [href]. *)
Definition pristine (ls : gmap string string) (href : string) : client :=
  {| st := {| baseUrl := "https://your-google-cloud-function-url.com/api";
              authToken := None;
              cache := ∅;
              localStorage := ls;
              location_href := href |};
     requestInterceptors := [];
     responseInterceptors := [] |}.

(** The class once the script has been loaded: [ApiClient.init()] is the
    last statement of the file. *)
Definition loaded (ls : gmap string string) (href : string) : client :=
  init (pristine ls href).

End Globals.

(** ** Retry logic *)

Inductive retry_event : Type :=
| Attempt (i : Z)
| Sleep (ms : Z).

Section Retry.

(** The callable acts on some state of its own. *)
Context {W : Type} (requestFn : W -> settled * W) (maxRetries delay : Z).

(** [for (let i = 0; i < maxRetries; i++)] from [i] on. *)
Equations? retry_loop (i : Z) (w : W) : settled * W * list retry_event
  by wf (Z.to_nat (maxRetries - i)) lt :=
  retry_loop i w with decide (i < maxRetries) => {
    | right _ => (Resolved VUndefined, w, []);
    | left _ with requestFn w => {
        | (Resolved v, w1) => (Resolved v, w1, [Attempt i]);
        | (Rejected error, w1) with decide (i = maxRetries - 1) => {
            | left _ => (Rejected error, w1, [Attempt i]);
            | right _ =>
                let '(r, w2, tr) := retry_loop (i + 1) w1 in
                (r, w2, Attempt i :: Sleep (delay * 2 ^ i) :: tr) } } }.
Proof. lia. Qed.

End Retry.

(** [retryRequest(requestFn, maxRetries = 3, delay = 1000)]. *)
Definition retryRequest {W : Type} (requestFn : W -> settled * W)
    (maxRetries delay : option Z) (w : W) : settled * W * list retry_event :=
  retry_loop requestFn (default 3 maxRetries) (default 1000 delay) 0 w.

(** ** Error classification *)

(** [`${v}`]. *)
Definition to_string (v : value) : string :=
  match v with
  | VUndefined => "undefined"
  | VNull => "null"
  | VBool b => if b then "true" else "false"
  | VNum n => pretty n
  | VStr s => s
  | VObj _ => "[object Object]"
  end.

(** [data.message || fallback]. *)
Definition message_or (d : value) (fallback : string) : completion value :=
  match get_prop d "message" with
  | Throw e => Throw e
  | Normal m => Normal (if truthy m then m else VStr fallback)
  end.

(** [handleError(error)]; the call of [console.error] is left out. *)
Definition handleError (error : value) : completion value :=
  match get_prop error "response" with
  | Throw e => Throw e
  | Normal response =>
      if truthy response then
        match get_prop response "status", get_prop response "data" with
        | Normal status, Normal d =>
            if strict_eq_num status 400 then message_or d "Bad request"
            else if strict_eq_num status 401 then Normal (VStr "Unauthorized access")
            else if strict_eq_num status 403 then Normal (VStr "Access forbidden")
            else if strict_eq_num status 404 then Normal (VStr "Resource not found")
            else if strict_eq_num status 422 then message_or d "Validation error"
            else if strict_eq_num status 429
                 then Normal (VStr "Too many requests. Please try again later.")
            else if strict_eq_num status 500 then Normal (VStr "Internal server error")
            else if strict_eq_num status 502 || strict_eq_num status 503
                    || strict_eq_num status 504
                 then Normal (VStr "Service temporarily unavailable")
            else message_or d ("Error " +:+ to_string status)
        | Throw e, _ => Throw e
        | _, Throw e => Throw e
        end
      else
        match get_prop error "request" with
        | Throw e => Throw e
        | Normal request =>
            if truthy request
            then Normal (VStr "Network error. Please check your connection.")
            else
              match get_prop error "message" with
              | Throw e => Throw e
              | Normal m =>
                  Normal (if truthy m then m else VStr "An unexpected error occurred")
              end
        end
  end.

(** ** The verbs *)

(** What [post] receives as [data]: a value to serialise, or a [FormData]
    object ([data instanceof FormData]). *)
Inductive payload : Type :=
| JsonData (v : value)
| FormData (fd : value).

Definition payload_value (data : payload) : value :=
  match data with
  | JsonData v => v
  | FormData fd => fd
  end.

Section Verbs.

Variable JSON_stringify : value -> string.
Variable URLSearchParams_toString : value -> string.

(** How a [FormData] holding the given entries, in order, shows as a
    value. *)
Variable FormData_of : list (string * value) -> value.

(** The declaration of [config] in [request]; the source has [const]. *)
Variable d : decl.

Definition get_with (c : client) (net : network) (endpoint : string) (params : value)
  : settled * store * list event :=
  let queryString := URLSearchParams_toString (or_empty params) in
  let url := if truthy (VStr queryString)
             then endpoint +:+ "?" +:+ queryString else endpoint in
  request_with d c net url {[ "method"%string := VStr "GET" ]}.

(** The config that [post] hands to [request]:
    [{ method: 'POST', body: JSON.stringify(data), ...options }], and for a
    [FormData] the [Content-Type] header deleted and the body replaced. *)
Definition post_config (data : payload) (options : gmap string value)
  : completion (gmap string value) :=
  let config : gmap string value :=
    options ∪ {[ "method"%string := VStr "POST";
                 "body"%string := VStr (JSON_stringify (payload_value data)) ]} in
  match data with
  | JsonData _ => Normal config
  | FormData fd =>
      match default VUndefined (config !! "headers"%string) with
      | VUndefined | VNull =>
          Throw (TypeError "Cannot convert undefined or null to object")
      | VObj headers =>
          Normal (<["body"%string := fd]>
                    (<["headers"%string := VObj (delete "Content-Type"%string headers)]> config))
      | _ => Normal (<["body"%string := fd]> config)
      end
  end.

(** [post(endpoint, data = {}, options = {})]. *)
Definition post_with (c : client) (net : network) (endpoint : string)
    (data : option payload) (options : gmap string value) : settled * store * list event :=
  match post_config (default (JsonData (VObj ∅)) data) options with
  | Throw e => (Rejected e, st c, [])
  | Normal config => request_with d c net endpoint config
  end.

Definition put_with (c : client) (net : network) (endpoint : string)
    (data : option value) (options : gmap string value) : settled * store * list event :=
  request_with d c net endpoint
    (options ∪ {[ "method"%string := VStr "PUT";
                  "body"%string := VStr (JSON_stringify (default (VObj ∅) data)) ]}).

Definition patch_with (c : client) (net : network) (endpoint : string)
    (data : option value) (options : gmap string value) : settled * store * list event :=
  request_with d c net endpoint
    (options ∪ {[ "method"%string := VStr "PATCH";
                  "body"%string := VStr (JSON_stringify (default (VObj ∅) data)) ]}).

(** [delete(endpoint, options = {})]. *)
Definition delete_with (c : client) (net : network) (endpoint : string)
    (options : gmap string value) : settled * store * list event :=
  request_with d c net endpoint (options ∪ {[ "method"%string := VStr "DELETE" ]}).

(** [uploadFile(endpoint, file, additionalData = {})]: the keys of
    [additionalData] are given in the order of [Object.keys]. *)
Definition uploadFile_with (c : client) (net : network) (endpoint : string) (file : value)
    (additionalData : list (string * value)) : settled * store * list event :=
  let formData := FormData_of (("file"%string, file) :: additionalData) in
  post_with c net endpoint (Some (FormData formData)) {[ "headers"%string := VObj ∅ ]}.

End Verbs.

(** The verbs of the source: [config] is a [const]. *)
Definition post (JSON_stringify : value -> string) :=
  post_with JSON_stringify Const.
Definition put (JSON_stringify : value -> string) :=
  put_with JSON_stringify Const.
Definition patch (JSON_stringify : value -> string) :=
  patch_with JSON_stringify Const.
Definition delete_ := delete_with Const.
Definition uploadFile (JSON_stringify : value -> string)
    (FormData_of : list (string * value) -> value) :=
  uploadFile_with JSON_stringify FormData_of Const.

End ApiClient.

(** ** App: the authentication flows that call the client *)

Module App.
Import JS ApiClient.

(** What the flows do to the page. *)
Inductive ui_event : Type :=
| ShowSuccess (message : value)
| ShowError (message : value)
| UpdateUIForAuthenticatedUser (user : value)
| UpdateUIForUnauthenticatedUser.

(** The static fields of [App] the flows touch, and the page effects so
    far.  The browser storage and location are those of the client's
    [store]. *)
Record app : Type := { currentUser : value; ui : list ui_event }.

Definition show (ev : ui_event) (a : app) : app :=
  {| currentUser := currentUser a; ui := ui a ++ [ev] |}.

Definition set_currentUser (user : value) (a : app) : app :=
  {| currentUser := user; ui := ui a |}.

(** How [initializeAuth] ends. *)
Inductive auth_outcome : Type :=
| NoToken
| Verified
| StartsLogout.

Section Flows.

Variable JSON_stringify : value -> string.
Variable URLSearchParams_toString : value -> string.

(** The declaration of [config] in [ApiClient.request]; the source has
    [const]. *)
Variable d : decl.

(** [updateUIForAuthenticatedUser] reads the document and the user; for
    some users and documents it throws ([user.email.split] on a user
    without [email]): [Some e] is the thrown value.  It returns at once
    when there is no user. *)
Variable document_throws : value -> option value.

Definition updateUIForAuthenticatedUser_throws (user : value) : option value :=
  if truthy user then document_throws user else None.

Definition login_failed (a : app) : app :=
  show (ShowError (VStr "Login failed. Please try again.")) a.

(** [login(credentials)]; writes to the storage are taken to succeed. *)
Definition login (a : app) (c : client) (net : network) (credentials : value)
  : bool * app * store * list event :=
  let data := match credentials with
              | VUndefined => None
              | _ => Some (JsonData credentials)
              end in
  let '(r, s1, tr) := post_with JSON_stringify d c net "/auth/login" data ∅ in
  match r with
  | Rejected _ => (false, login_failed a, s1, tr)
  | Resolved response =>
      match get_prop response "success" with
      | Throw _ => (false, login_failed a, s1, tr)
      | Normal success =>
          if truthy success then
            let user := get_prop_opt response "user" in
            let token := get_prop_opt response "token" in
            let a1 := set_currentUser user a in
            let s2 :=
              set_localStorage
                (<["user"%string := JSON_stringify user]>
                   (<["authToken"%string := to_string token]> (localStorage s1))) s1 in
            match updateUIForAuthenticatedUser_throws user with
            | Some _ => (false, login_failed a1, s2, tr)
            | None =>
                (true,
                 show (ShowSuccess (VStr "Login successful!"))
                   (show (UpdateUIForAuthenticatedUser user) a1),
                 s2, tr)
            end
          else (false, show (ShowError (get_prop_opt response "message")) a, s1, tr)
      end
  end.

(** [logout()]: whatever the call does, the [finally] block runs. *)
Definition logout (a : app) (c : client) (net : network) : app * store * list event :=
  let '(_, s1, tr) := post_with JSON_stringify d c net "/auth/logout" None ∅ in
  let s2 :=
    set_localStorage
      (delete "user"%string (delete "authToken"%string (localStorage s1))) s1 in
  (show (ShowSuccess (VStr "Logged out successfully"))
     (show UpdateUIForUnauthenticatedUser (set_currentUser VNull a)),
   set_location_href "../index.html" s2, tr).

(** [initializeAuth()] up to its decision; [logout] is started, not
    awaited. *)
Definition initializeAuth (a : app) (c : client) (net : network)
  : auth_outcome * app * store * list event :=
  match localStorage (st c) !! "authToken"%string with
  | None => (NoToken, a, st c, [])
  | Some token =>
      if truthy (VStr token) then
        let '(r, s1, tr) :=
          get_with URLSearchParams_toString d c net "/auth/verify" VUndefined in
        match r with
        | Rejected _ => (StartsLogout, a, s1, tr)
        | Resolved response =>
            match get_prop response "success" with
            | Throw _ => (StartsLogout, a, s1, tr)
            | Normal success =>
                if truthy success then
                  let user := get_prop_opt response "user" in
                  let a1 := set_currentUser user a in
                  match updateUIForAuthenticatedUser_throws user with
                  | Some _ => (StartsLogout, a1, s1, tr)
                  | None => (Verified, show (UpdateUIForAuthenticatedUser user) a1, s1, tr)
                  end
                else (StartsLogout, a, s1, tr)
            end
        end
      else (NoToken, a, st c, [])
  end.

End Flows.

End App.

(** * Vocabulary of the properties *)

Import JS Utils ApiClient.

(** ** Retry traces *)

(** [failing fn w errors w']: from [w], [fn] fails [length errors] times in
    a row, with these errors, and leaves [w']. *)
Inductive failing {W : Type} (requestFn : W -> settled * W) : W -> list value -> W -> Prop :=
| failing_nil (w : W) : failing requestFn w [] w
| failing_cons (w w1 w2 : W) (e : value) (errors : list value) :
    requestFn w = (Rejected e, w1) ->
    failing requestFn w1 errors w2 ->
    failing requestFn w (e :: errors) w2.

(** The calls and sleeps of [k] attempts starting with attempt number [i]
    (counted from 0): a sleep of [delay * 2 ^ i] after each attempt but the
    last. *)
Fixpoint backoff_trace (delay : Z) (i : Z) (k : nat) : list retry_event :=
  match k with
  | O => []
  | S O => [Attempt i]
  | S k' => Attempt i :: Sleep (delay * 2 ^ i) :: backoff_trace delay (i + 1) k'
  end.

(** The number of invocations of the callable in a trace. *)
Definition invocations (tr : list retry_event) : nat :=
  length (omap (fun ev => match ev with Attempt i => Some i | Sleep _ => None end) tr).

(** The sleeps of a trace, in order. *)
Definition sleeps (tr : list retry_event) : list Z :=
  omap (fun ev => match ev with Sleep ms => Some ms | Attempt _ => None end) tr.

(** A callable that fails on its first two calls and succeeds from the
    third on, and one that always fails; the state counts the calls. *)
Definition flaky (calls : nat) : settled * nat :=
  match calls with
  | 0%nat | 1%nat => (Rejected (VNum (Z.of_nat calls)), S calls)
  | _ => (Resolved (VStr "ok"), S calls)
  end.

Definition broken (calls : nat) : settled * nat :=
  (Rejected (VNum (Z.of_nat calls)), S calls).

(** ** Configs *)

(** The header [name] of a config, when the config has a headers object
    holding it. *)
Definition config_header (config : gmap string value) (name : string) : option value :=
  match config !! "headers"%string with
  | Some (VObj headers) => headers !! name
  | _ => None
  end.

(** The first thing a run of [request] hands the config to: the first
    request interceptor if there is one, the transport otherwise. *)
Definition first_consumer (c : client) (endpoint : string) (config : value) : event :=
  match requestInterceptors c with
  | [] => EvFetch (baseUrl (st c) +:+ endpoint) config
  | _ :: _ => EvRequestInterceptor 0 config
  end.

(** ** Interceptor chains *)

(** The fold of a config through request interceptors, in list order:
    each interceptor receives what the one before it returned. *)
Fixpoint fold_interceptors (interceptors : list requestInterceptor) (config : value)
    (s : store) : completion value * store :=
  match interceptors with
  | [] => (Normal config, s)
  | interceptor :: rest =>
      match interceptor s config with
      | (Normal v, s1) => fold_interceptors rest v s1
      | (Throw e, s1) => (Throw e, s1)
      end
  end.

(** The calls of that fold, numbered from [k]. *)
Fixpoint fold_trace (interceptors : list requestInterceptor) (k : nat) (config : value)
    (s : store) : list event :=
  match interceptors with
  | [] => []
  | interceptor :: rest =>
      EvRequestInterceptor k config ::
      match interceptor s config with
      | (Normal v, s1) => fold_trace rest (S k) v s1
      | (Throw _, _) => []
      end
  end.

(** The error a call of a request interceptor ends in when its result is
    assigned to a [const]. *)
Definition const_error (r : completion value) : value :=
  match r with
  | Normal _ => TypeError "Assignment to constant variable."
  | Throw e => e
  end.

(** [first_with cb interceptors k f]: the interceptor at position [k] is
    the first of the list whose callback [cb] is defined, and it is [f]. *)
Definition first_with (cb : responseInterceptor -> option callback)
    (interceptors : list responseInterceptor) (k : nat) (f : callback) : Prop :=
  (exists i : responseInterceptor, interceptors !! k = Some i /\ cb i = Some f) /\
  (forall (j : nat) (i : responseInterceptor),
      (j < k)%nat -> interceptors !! j = Some i -> cb i = None).

(** No interceptor of the list defines the callback [cb]. *)
Definition none_with (cb : responseInterceptor -> option callback)
    (interceptors : list responseInterceptor) : Prop :=
  forall i : responseInterceptor, In i interceptors -> cb i = None.

(** The positions of the success callbacks, and of the failure callbacks,
    that a run invoked. *)
Definition fulfilled_calls (tr : list event) : list nat :=
  omap (fun ev => match ev with EvOnFulfilled k _ => Some k | _ => None end) tr.

Definition rejected_calls (tr : list event) : list nat :=
  omap (fun ev => match ev with EvOnRejected k _ => Some k | _ => None end) tr.

(** The transport calls of a run. *)
Definition fetch_calls (tr : list event) : list (string * value) :=
  omap (fun ev => match ev with EvFetch url config => Some (url, config) | _ => None end) tr.

(** [extends c c']: the interceptor lists of [c'] are those of [c] with
    further registrations at the end. *)
Definition extends (c c' : client) : Prop :=
  (exists l : list requestInterceptor,
      requestInterceptors c' = requestInterceptors c ++ l) /\
  (exists l : list responseInterceptor,
      responseInterceptors c' = responseInterceptors c ++ l).

(** [receives c net endpoint options outcome]: the call reached the
    transport, once, and [outcome] is what came of it up to the response
    object: the response object, or the error thrown before there was
    one. *)
Definition receives (c : client) (net : network) (endpoint : string)
    (options : gmap string value) (outcome : completion value) : Prop :=
  exists (url : string) (config : value),
    fetch_calls (request c net endpoint options).2 = [(url, config)] /\
    fetch_phase net url config = outcome.

(** [answered c net endpoint options resp]: the call reached the
    transport, once, and the transport answered with [resp]: there was no
    transport error. *)
Definition answered (c : client) (net : network) (endpoint : string)
    (options : gmap string value) (resp : Response) : Prop :=
  exists (url : string) (config : value),
    fetch_calls (request c net endpoint options).2 = [(url, config)] /\
    net url config = Fetched resp.

(** ** Sample collaborators *)

(** A transport answering every call with a [200] plain-text body, and one
    that is unreachable. *)
Definition text_response (body : string) : Response :=
  {| r_status := 200;
     r_statusText := "OK";
     r_headers := {[ "content-type"%string := "text/plain"%string ]};
     r_ok := true;
     r_json := Throw (VStr "SyntaxError");
     r_text := Normal (VStr body) |}.

Definition online : network := fun _ _ => Fetched (text_response "pong").

Definition offline : network := fun _ _ => FetchFailed (VStr "Failed to fetch").

(** Callbacks: one that returns a label, one that throws, one that
    returns a rejected promise. *)
Definition returns (label : string) : callback := fun s _ => (CbReturn (VStr label), s).

Definition throws (e : value) : callback := fun s _ => (CbThrow e, s).


(** A client without any request interceptor, with the given response
    interceptors. *)
Definition bare (interceptors : list responseInterceptor) : client :=
  {| st := st (pristine ∅ "");
     requestInterceptors := [];
     responseInterceptors := interceptors |}.

Definition pong : value := responseObj (text_response "pong") (VStr "pong").

(** ** Errors *)

(** [error?.response?.status]: the status of the response attached to an
    error, [undefined] when there is none. *)
Definition attached_status (error : value) : value :=
  get_prop_opt (get_prop_opt error "response") "status".

(** The stored auth state cleared: no token in the class, no [authToken]
    and no [user] entry in the storage. *)
Definition signed_out (s : store) : Prop :=
  authToken s = None /\
  localStorage s !! "authToken"%string = None /\
  localStorage s !! "user"%string = None.

(** An error carrying a response with the given status. *)
Definition http_error (status : Z) : value :=
  VObj {[ "message"%string := VStr "Request failed";
          "response"%string := VObj {[ "status"%string := VNum status ]} ]}.

(** A browser storage holding a session. *)
Definition session_storage : gmap string string :=
  {[ "authToken"%string := "abc"%string; "user"%string := "{}"%string;
     "theme"%string := "dark"%string ]}.

(** A page that registers one more response interceptor after loading. *)
Definition late_registration : list op :=
  [OpAddResponseInterceptor (Some (returns "late")) (Some (returns "late"))].

(** Serialisers standing for [JSON.stringify] and [URLSearchParams] on the
    parameter objects of the samples: only the empty object occurs. *)
Definition stringify_sample (params : value) : string := "{}".

Definition query_sample (params : value) : string := "".

(** A transport answering every call with a [401] JSON body. *)
Definition unauthorized_response : Response :=
  {| r_status := 401;
     r_statusText := "Unauthorized";
     r_headers := {[ "content-type"%string := "application/json; charset=utf-8"%string ]};
     r_ok := false;
     r_json := Normal (VObj {[ "message"%string := VStr "token expired" ]});
     r_text := Normal (VStr "{}") |}.

Definition refusing : network := fun _ _ => Fetched unauthorized_response.

(** A transport answering every call with a [200] announced as JSON whose
    body does not parse. *)
Definition garbled_response : Response :=
  {| r_status := 200;
     r_statusText := "OK";
     r_headers := {[ "content-type"%string := "application/json"%string ]};
     r_ok := true;
     r_json := Throw (VStr "SyntaxError");
     r_text := Normal (VStr "<html>") |}.

Definition garbled : network := fun _ _ => Fetched garbled_response.


(** * Vocabulary of the further properties *)

(** A string literal as the list of its code units. *)
Definition str (s : string) : list ascii := String.list_ascii_of_string s.

(** The consecutive pieces of [l], [size] elements each but for a shorter
    last one; [n] bounds their number. *)
Fixpoint pieces {A : Type} (n size : nat) (l : list A) : list (list A) :=
  match n with
  | O => []
  | S n' =>
      match l with
      | [] => []
      | _ :: _ => take size l :: pieces n' size (drop size l)
      end
  end.

(** The number of occurrences of [x] in [l]. *)
Definition occurrences {A : Type} `{EqDecision A} (x : A) (l : list A) : nat :=
  length (filter (fun y => y = x) l).

(** What [generateUUID] may put in the place of a character [t] of its
    template: any hexadecimal digit for an [x], one of [8 9 a b] for the
    [y], the character itself otherwise. *)
Definition uuid_char (t c : ascii) : Prop :=
  if Ascii.eqb t "x" then exists k : Z, 0 <= k < 16 /\ c = hex_digit k
  else if Ascii.eqb t "y" then exists k : Z, 8 <= k <= 11 /\ c = hex_digit k
  else c = t.

(** One turn of the Luhn loop as a step on the pair (sum, isEven). *)
Definition luhn_step (state : option Z * bool) (c : ascii) : option Z * bool :=
  (match state.1, luhn_digit state.2 <$> parseInt (Some c) with
   | Some s, Some d => Some (s + d)
   | _, _ => None
   end,
   negb state.2).

(** ** Errors and calls of the client *)

(** [undefined] or [null]. *)
Definition nullish (v : value) : bool :=
  match v with
  | VUndefined | VNull => true
  | _ => false
  end.

(** The statuses for which [handleError] has a message of its own. *)
Definition fixed_status (status : value) : bool :=
  existsb (strict_eq_num status) [401; 403; 404; 429; 500; 502; 503; 504].

(** [blocked r s]: the call [r] was rejected, left the store [s] as it was
    and never reached the transport. *)
Definition blocked (r : settled * store * list event) (s : store) : Prop :=
  (exists e : value, r.1.1 = Rejected e) /\ r.1.2 = s /\ fetch_calls r.2 = [].

(** A response object as [request] builds it. *)
Definition envelope (v : value) : Prop :=
  exists (r : Response) (d : value), v = responseObj r d.

(** The sum of a list of numbers. *)
Definition total (l : list Z) : Z := foldr Z.add 0 l.

(** A stand-in for [FormData]: the entries as an object. *)
Definition form_sample (entries : list (string * value)) : value :=
  VObj (list_to_map entries).

(** Stand-ins for [JSON.stringify] and [JSON.parse] on the one record of
    the samples, a theme stored at instant 5000 for 1000 ms. *)
Definition theme_record : value := storage_data (VStr "dark") (Some 1000) 5000 5000.

Definition stringify_record (v : value) : completion string := Normal "theme-record"%string.

Definition parse_record (text : string) : completion value := Normal theme_record.

(** The page as the script leaves it in a browser holding a session, with
    no [AuthController], and an [App] nobody is signed in to. *)
Definition session_page : client := loaded None session_storage "/pages/home.html".

Definition signed_off : App.app := {| App.currentUser := VNull; App.ui := [] |}.
(** * Properties *)

(** ** The Luhn validator *)

Section Luhn.

Lemma strip_non_digits_no_digit (s : string) :
  (forall c : ascii, In c (String.list_ascii_of_string s) -> is_digit c = false) ->
  strip_non_digits s = [].
Proof.
  induction s as [|c s IH]; intros H; [reflexivity|].
  cbn [strip_non_digits].
  rewrite (H c) by (left; reflexivity).
  apply IH. intros c' Hc'. apply H. right. exact Hc'.
Qed.

Lemma strip_non_digits_digits (s : string) :
  Forall (fun c => is_digit c = true) (strip_non_digits s).
Proof.
  induction s as [|c s IH]; cbn [strip_non_digits]; [constructor|].
  destruct (is_digit c) eqn:E; [constructor; assumption | assumption].
Qed.

(** Over the digits kept by the filter the sum is never [NaN]. *)
Lemma luhn_loop_defined (digits : list ascii) :
  Forall (fun c => is_digit c = true) digits ->
  forall (n : nat) (sum : Z) (isEven : bool),
    (n <= length digits)%nat ->
    exists total : Z, luhn_loop digits n (Some sum) isEven = Some total.
Proof.
  intros Hd n. induction n as [|i IH]; intros sum isEven Hn; cbn [luhn_loop].
  - exists sum. reflexivity.
  - destruct (lookup_lt_is_Some_2 digits i ltac:(lia)) as [c Hc].
    rewrite Hc. unfold parseInt.
    assert (is_digit c = true) as ->.
    { rewrite Forall_forall in Hd. apply Hd.
      eapply list_elem_of_lookup_2. exact Hc. }
    cbn [fmap option_fmap option_map]. apply IH. lia.
Qed.

(** C10: an input without any decimal digit is accepted: the digit string
    is empty, the loop does not run, and [0 % 10 === 0]. *)
Theorem isValidCreditCard_no_digits (cardNumber : string) :
  (forall c : ascii, In c (String.list_ascii_of_string cardNumber) -> is_digit c = false) ->
  isValidCreditCard cardNumber = true.
Proof.
  intros H. unfold isValidCreditCard.
  rewrite (strip_non_digits_no_digit cardNumber H). reflexivity.
Qed.

End Luhn.

Lemma isValidCreditCard_no_digits_witness :
  isValidCreditCard "" = true /\ isValidCreditCard "n/a - none" = true.
Proof.
  split.
  - apply (isValidCreditCard_no_digits ""). intros c [].
  - apply (isValidCreditCard_no_digits "n/a - none").
    intros c Hc. cbn in Hc.
    repeat (destruct Hc as [<-|Hc]; [reflexivity|]). destruct Hc.
Defined.

Example isValidCreditCard_valid : isValidCreditCard "4532015112830366" = true.
Proof. reflexivity. Qed.

Example isValidCreditCard_invalid : isValidCreditCard "4532015112830367" = false.
Proof. reflexivity. Qed.

(** ** Retry with exponential backoff *)

Section RetryFacts.

Context {W : Type} (requestFn : W -> settled * W) (maxRetries delay : Z).

Lemma retry_loop_exit (i : Z) (w : W) :
  maxRetries <= i ->
  retry_loop requestFn maxRetries delay i w = (Resolved VUndefined, w, []).
Proof.
  intros Hi. rewrite retry_loop_equation_1.
  destruct (decide (i < maxRetries)) as [Hlt|Hge]; [lia | reflexivity].
Qed.

Lemma retry_loop_success (i : Z) (w w1 : W) (v : value) :
  i < maxRetries ->
  requestFn w = (Resolved v, w1) ->
  retry_loop requestFn maxRetries delay i w = (Resolved v, w1, [Attempt i]).
Proof.
  intros Hi Hfn. rewrite retry_loop_equation_1.
  destruct (decide (i < maxRetries)) as [Hlt|Hge]; [|lia].
  cbn. rewrite Hfn. reflexivity.
Qed.

Lemma retry_loop_last (i : Z) (w w1 : W) (e : value) :
  i = maxRetries - 1 ->
  requestFn w = (Rejected e, w1) ->
  retry_loop requestFn maxRetries delay i w = (Rejected e, w1, [Attempt i]).
Proof.
  intros Hi Hfn. rewrite retry_loop_equation_1.
  destruct (decide (i < maxRetries)) as [Hlt|Hge]; [|lia].
  cbn. rewrite Hfn. cbn.
  destruct (decide (i = maxRetries - 1)) as [Heq|Hne]; [reflexivity | lia].
Qed.

Lemma retry_loop_again (i : Z) (w w1 : W) (e : value) :
  i < maxRetries - 1 ->
  requestFn w = (Rejected e, w1) ->
  retry_loop requestFn maxRetries delay i w =
    let '(r, w2, tr) := retry_loop requestFn maxRetries delay (i + 1) w1 in
    (r, w2, Attempt i :: Sleep (delay * 2 ^ i) :: tr).
Proof.
  intros Hi Hfn. rewrite retry_loop_equation_1.
  destruct (decide (i < maxRetries)) as [Hlt|Hge]; [|lia].
  cbn. rewrite Hfn. cbn.
  destruct (decide (i = maxRetries - 1)) as [Heq|Hne]; [lia | reflexivity].
Qed.

End RetryFacts.

Section Backoff.

Context {W : Type} (requestFn : W -> settled * W) (maxRetries delay : Z).

Lemma retry_loop_failing_then_success (w w1 w2 : W) (errors : list value) (v : value) :
  failing requestFn w errors w1 ->
  requestFn w1 = (Resolved v, w2) ->
  forall i : Z,
    i + Z.of_nat (length errors) < maxRetries ->
    retry_loop requestFn maxRetries delay i w =
      (Resolved v, w2, backoff_trace delay i (S (length errors))).
Proof.
  intros Hfail.
  induction Hfail as [w|w wa wb e errors Hfn Hfail IH]; intros Hok i Hi.
  - cbn in Hi. rewrite (retry_loop_success _ _ _ i w w2 v) by (lia || assumption).
    reflexivity.
  - cbn [length] in Hi.
    rewrite (retry_loop_again _ _ _ i w wa e) by (lia || assumption).
    rewrite (IH Hok (i + 1)) by lia. reflexivity.
Qed.

Lemma retry_loop_all_failing (errors : list value) (e : value) :
  forall (w w1 : W) (i : Z),
    failing requestFn w (errors ++ [e]) w1 ->
    i + Z.of_nat (length (errors ++ [e])) = maxRetries ->
    retry_loop requestFn maxRetries delay i w =
      (Rejected e, w1, backoff_trace delay i (S (length errors))).
Proof.
  induction errors as [|e0 errors IH]; intros w w1 i Hfail.
  - inversion Hfail as [|? wa ? ? ? Hfn Hrest]; subst.
    inversion Hrest; subst. intros Hi. cbn in Hi.
    rewrite (retry_loop_last _ _ _ i w w1 e) by (lia || assumption).
    reflexivity.
  - inversion Hfail as [|? wa ? ? ? Hfn Hrest]; subst. intros Hi.
    rewrite length_app in Hi. cbn [length] in Hi.
    rewrite (retry_loop_again _ _ _ i w wa e0) by (lia || assumption).
    rewrite (IH wa w1 (i + 1) Hrest) by (rewrite length_app; cbn [length]; lia).
    reflexivity.
Qed.

End Backoff.

Lemma backoff_trace_invocations (delay : Z) (k : nat) :
  forall i : Z, invocations (backoff_trace delay i k) = k.
Proof.
  induction k as [|k IH]; intros i; [reflexivity|].
  destruct k as [|k]; [reflexivity|].
  change (backoff_trace delay i (S (S k)))
    with (Attempt i :: Sleep (delay * 2 ^ i) :: backoff_trace delay (i + 1) (S k)).
  unfold invocations in *. cbn [omap list_omap length].
  rewrite (IH (i + 1)). reflexivity.
Qed.

Lemma backoff_trace_sleeps (delay : Z) (k : nat) :
  forall i : Z,
    sleeps (backoff_trace delay i (S k)) =
      (fun j : nat => delay * 2 ^ (i + Z.of_nat j)) <$> seq 0 k.
Proof.
  induction k as [|k IH]; intros i; [reflexivity|].
  change (backoff_trace delay i (S (S k)))
    with (Attempt i :: Sleep (delay * 2 ^ i) :: backoff_trace delay (i + 1) (S k)).
  unfold sleeps in *. cbn [omap list_omap].
  rewrite (IH (i + 1)). cbn [seq fmap list_fmap].
  rewrite Z.add_0_r. f_equal.
  rewrite <- seq_shift, <- list_fmap_compose.
  apply list_fmap_ext. intros _ j _. cbn. f_equal. f_equal. lia.
Qed.

Lemma backoff_trace_last (delay : Z) (k : nat) :
  forall i : Z, last (backoff_trace delay i (S k)) = Some (Attempt (i + Z.of_nat k)).
Proof.
  induction k as [|k IH]; intros i.
  - cbn. rewrite Z.add_0_r. reflexivity.
  - change (backoff_trace delay i (S (S k)))
      with (Attempt i :: Sleep (delay * 2 ^ i) :: backoff_trace delay (i + 1) (S k)).
    specialize (IH (i + 1)).
    destruct (backoff_trace delay (i + 1) (S k)) as [|ev tr] eqn:E; [discriminate|].
    cbn [last] in *. rewrite IH. f_equal. f_equal. lia.
Qed.

(** C9: with [maxRetries = n >= 1], a callable that fails [k - 1] times and
    then succeeds ([k <= n]) is invoked exactly [k] times and its value is
    returned; one that fails [n] times is invoked exactly [n] times and its
    last error is re-raised.  Attempt [j + 1] (for [j] from 0) is followed
    by a sleep of [delay * 2 ^ j] unless it is the last one made. *)
Theorem retryRequest_backoff {W : Type} (requestFn : W -> settled * W)
    (n delay : Z) (w : W) :
  1 <= n ->
  (forall (errors : list value) (w1 w2 : W) (v : value),
      failing requestFn w errors w1 ->
      Z.of_nat (length errors) < n ->
      requestFn w1 = (Resolved v, w2) ->
      let k := S (length errors) in
      exists tr : list retry_event,
        retryRequest requestFn (Some n) (Some delay) w = (Resolved v, w2, tr) /\
        tr = backoff_trace delay 0 k /\
        invocations tr = k /\
        sleeps tr = (fun j : nat => delay * 2 ^ Z.of_nat j) <$> seq 0 (k - 1) /\
        last tr = Some (Attempt (Z.of_nat k - 1))) /\
  (forall (errors : list value) (e : value) (w1 : W),
      failing requestFn w (errors ++ [e]) w1 ->
      Z.of_nat (length (errors ++ [e])) = n ->
      exists tr : list retry_event,
        retryRequest requestFn (Some n) (Some delay) w = (Rejected e, w1, tr) /\
        tr = backoff_trace delay 0 (Z.to_nat n) /\
        invocations tr = Z.to_nat n /\
        sleeps tr = (fun j : nat => delay * 2 ^ Z.of_nat j) <$> seq 0 (Z.to_nat n - 1) /\
        last tr = Some (Attempt (n - 1))).
Proof.
  intros Hn. split.
  - intros errors w1 w2 v Hfail Hlen Hok k.
    exists (backoff_trace delay 0 k). subst k.
    split; [|split; [reflexivity|split; [|split]]].
    + unfold retryRequest, default, from_option, id.
      apply (retry_loop_failing_then_success _ _ _ w w1 w2 errors v Hfail Hok 0). lia.
    + apply backoff_trace_invocations.
    + rewrite backoff_trace_sleeps. cbn [Nat.sub]. rewrite Nat.sub_0_r.
      apply list_fmap_ext. intros _ j _. cbn. reflexivity.
    + rewrite backoff_trace_last. f_equal. f_equal. lia.
  - intros errors e w1 Hfail Hlen.
    assert (Z.to_nat n = S (length errors)) as Hk.
    { rewrite length_app in Hlen. cbn [length] in Hlen. lia. }
    exists (backoff_trace delay 0 (Z.to_nat n)). rewrite Hk.
    split; [|split; [reflexivity|split; [|split]]].
    + unfold retryRequest, default, from_option, id.
      apply (retry_loop_all_failing _ _ _ errors e w w1 0 Hfail). lia.
    + apply backoff_trace_invocations.
    + rewrite backoff_trace_sleeps. cbn [Nat.sub]. rewrite Nat.sub_0_r.
      apply list_fmap_ext. intros _ j _. cbn. reflexivity.
    + rewrite backoff_trace_last. f_equal. f_equal. lia.
Qed.

Lemma retryRequest_backoff_witness :
  retryRequest flaky (Some 3) (Some 10) 0%nat =
    (Resolved (VStr "ok"), 3%nat, [Attempt 0; Sleep 10; Attempt 1; Sleep 20; Attempt 2]) /\
  retryRequest broken (Some 3) (Some 10) 0%nat =
    (Rejected (VNum 2), 3%nat, [Attempt 0; Sleep 10; Attempt 1; Sleep 20; Attempt 2]).
Proof.
  split.
  - destruct (retryRequest_backoff flaky 3 10 0%nat ltac:(lia)) as [Hsucc _].
    destruct (Hsucc [VNum 0; VNum 1] 2%nat 3%nat (VStr "ok")) as (tr & Hrun & Htr & _).
    + repeat (econstructor; try reflexivity).
    + cbn. lia.
    + reflexivity.
    + rewrite Hrun, Htr. reflexivity.
  - destruct (retryRequest_backoff broken 3 10 0%nat ltac:(lia)) as [_ Hfail].
    destruct (Hfail [VNum 0; VNum 1] (VNum 2) 3%nat) as (tr & Hrun & Htr & _).
    + repeat (econstructor; try reflexivity).
    + reflexivity.
    + rewrite Hrun, Htr. reflexivity.
Defined.

(** Falling off the loop: with [maxRetries <= 0] the callable is never
    invoked and the promise resolves to [undefined]. *)
Lemma retryRequest_no_attempt {W : Type} (requestFn : W -> settled * W)
    (n delay : Z) (w : W) :
  n <= 0 ->
  retryRequest requestFn (Some n) (Some delay) w = (Resolved VUndefined, w, []).
Proof.
  intros Hn. unfold retryRequest, default, from_option, id.
  apply retry_loop_exit. exact Hn.
Qed.

(** ** The TTL cache *)

Section Cache.

Implicit Types (key : string) (v : value) (s : store) (now t : Z).

Lemma cache_set_cache (m : gmap string cacheEntry) s : cache (set_cache m s) = m.
Proof. reflexivity. Qed.

Lemma set_cache_set_cache (m m' : gmap string cacheEntry) s :
  set_cache m (set_cache m' s) = set_cache m s.
Proof. reflexivity. Qed.

Lemma getCache_fresh key v t now now' s :
  now' - now <= t ->
  getCache key now' (setCache key v (Some t) now s) =
    (v, setCache key v (Some t) now s).
Proof.
  intros Hle. unfold getCache, setCache. rewrite cache_set_cache, lookup_insert_eq.
  cbn [timestamp timeout data default from_option id].
  destruct (now' - now >? t) eqn:E; [lia | reflexivity].
Qed.

Lemma getCache_expired key v t now now' s :
  now' - now > t ->
  getCache key now' (setCache key v (Some t) now s) =
    (VNull, set_cache (delete key (cache s)) s).
Proof.
  intros Hgt. unfold getCache, setCache. rewrite cache_set_cache, lookup_insert_eq.
  cbn [timestamp timeout data default from_option id].
  destruct (now' - now >? t) eqn:E; [|lia].
  rewrite set_cache_set_cache, delete_insert_eq. reflexivity.
Qed.

Lemma getCache_absent key now s :
  cache s !! key = None -> getCache key now s = (VNull, s).
Proof. intros H. unfold getCache. rewrite H. reflexivity. Qed.

End Cache.

(** C7, as the code has it: after [setCache(key, v, t)] a read at elapsed
    time at most [t] returns [v] and keeps the entry, so the read made at
    the instant of the write returns [v] whenever [0 <= t]; a read at elapsed
    time beyond [t] returns [null] and deletes the entry, so every later
    read returns [null] too, whatever the clock says; for [v] other than
    [null], [v] is returned exactly when the elapsed time is at most [t]. *)
Theorem setCache_getCache_ttl (key : string) (v : value) (t now : Z) (s : store) :
  let s1 := setCache key v (Some t) now s in
  (0 <= t -> getCache key now s1 = (v, s1)) /\
  (forall now' : Z, now' - now <= t -> getCache key now' s1 = (v, s1)) /\
  (forall now' : Z, now' - now > t ->
     let s2 := (getCache key now' s1).2 in
     (getCache key now' s1).1 = VNull /\
     cache s2 !! key = None /\
     forall now'' : Z, getCache key now'' s2 = (VNull, s2)) /\
  (v <> VNull ->
   forall now' : Z, (getCache key now' s1).1 = v <-> now' - now <= t).
Proof.
  intros s1. subst s1. repeat split.
  - intros Ht. apply getCache_fresh. lia.
  - intros now' Hle. apply getCache_fresh. exact Hle.
  - rewrite getCache_expired by assumption. reflexivity.
  - rewrite getCache_expired by assumption. cbn [snd].
    rewrite cache_set_cache. apply lookup_delete_eq.
  - intros now''. rewrite getCache_expired by assumption. cbn [snd].
    apply getCache_absent. rewrite cache_set_cache. apply lookup_delete_eq.
  - intros Hv. destruct (Z_le_gt_dec (now' - now) t) as [Hle|Hgt]; [exact Hle|].
    rewrite getCache_expired in Hv by assumption. cbn [fst] in Hv. congruence.
  - intros Hle. rewrite getCache_fresh by assumption. reflexivity.
Qed.

Lemma setCache_getCache_ttl_witness :
  let s := st (pristine ∅ "") in
  let s1 := setCache "k" (VStr "v") (Some 100) 5000 s in
  getCache "k" 5000 s1 = (VStr "v", s1) /\
  getCache "k" 5100 s1 = (VStr "v", s1) /\
  (getCache "k" 5101 s1).1 = VNull /\
  getCache "k" 5000 (getCache "k" 5101 s1).2 = (VNull, (getCache "k" 5101 s1).2) /\
  ((getCache "k" 5100 s1).1 = VStr "v" <-> 5100 - 5000 <= 100).
Proof.
  intros s s1.
  destruct (setCache_getCache_ttl "k" (VStr "v") 100 5000 s) as (H0 & Hfresh & Hexp & Hiff).
  split; [apply H0; lia|].
  split; [apply Hfresh; lia|].
  destruct (Hexp 5101 ltac:(lia)) as (Hnull & _ & Hgone).
  split; [exact Hnull|].
  split; [apply Hgone|].
  apply Hiff. discriminate.
Defined.

(** C7 as stated fails for a negative time to live: the entry has expired
    at the instant it is written, and the first read evicts it. *)
Lemma setCache_getCache_negative_ttl :
  let s := st (pristine ∅ "") in
  (getCache "k" 5000 (setCache "k" (VStr "v") (Some (-1)) 5000 s)).1 = VNull /\
  (getCache "k" 5000 (setCache "k" (VStr "v") (Some (-1)) 5000 s)).1 <> VStr "v".
Proof. split; [reflexivity | discriminate]. Qed.

(** A stored [null] and an absent entry read alike. *)
Lemma getCache_stored_null :
  let s := st (pristine ∅ "") in
  getCache "k" 5101 (setCache "k" VNull (Some 100) 5000 s) = (VNull, s) /\
  (getCache "k" 5100 (setCache "k" VNull (Some 100) 5000 s)).1 = VNull.
Proof. split; reflexivity. Qed.

(** The default time to live is five minutes. *)
Lemma setCache_default_timeout (key : string) (v : value) (now : Z) (s : store) :
  setCache key v None now s = setCache key v (Some 300000) now s.
Proof. reflexivity. Qed.

Lemma clearCache_getCache (key : string) (now : Z) (s : store) :
  getCache key now (clearCache s) = (VNull, clearCache s).
Proof. apply getCache_absent. apply lookup_empty. Qed.

(** ** The initial config *)

Section InitialConfig.

Implicit Types (options : gmap string value) (c : client).

Lemma initial_config_lookup options (k : string) :
  initial_config options !! k =
    match options !! k with
    | Some v => Some v
    | None =>
        ({[ "method"%string := VStr "GET"; "headers"%string := VObj defaultHeaders ]}
           : gmap string value) !! k
    end.
Proof.
  unfold initial_config. rewrite lookup_union.
  destruct (options !! k) as [v|]; [|rewrite (left_id None _); reflexivity].
  destruct (_ !! k); reflexivity.
Qed.

Lemma apply_request_interceptors_first (interceptor : requestInterceptor)
    (rest : list requestInterceptor) (k : nat) (config : binding) (s : store) :
  exists tr : list event,
    (apply_request_interceptors (interceptor :: rest) k config s).2 =
      EvRequestInterceptor k (b_val config) :: tr.
Proof.
  cbn [apply_request_interceptors].
  destruct (interceptor s (b_val config)) as [[v|e] s1]; [|eexists; reflexivity].
  destruct (assign config v) as [config'|e]; [|eexists; reflexivity].
  destruct (apply_request_interceptors rest (S k) config' s1) as [[r' s2] tr].
  eexists; reflexivity.
Qed.

Lemma request_with_first_event (d : decl) c (net : network) (endpoint : string) options :
  head (request_with d c net endpoint options).2 =
    Some (first_consumer c endpoint (VObj (initial_config options))).
Proof.
  unfold request_with, first_consumer. cbv zeta.
  destruct (requestInterceptors c) as [|interceptor rest].
  - cbn [apply_request_interceptors app b_val].
    repeat case_match; reflexivity.
  - match goal with
    | |- context [apply_request_interceptors ?l ?k ?b ?s] =>
        destruct (apply_request_interceptors_first interceptor rest k b s) as [tr Htr];
        destruct (apply_request_interceptors l k b s) as [[r s1] tr1]
    end.
    cbn [snd b_val] in Htr. subst tr1.
    repeat case_match; reflexivity.
Qed.

(** C4, as the code has it: the initial config is the top-level merge of
    [{ method: 'GET', headers: defaults }] with the options, so each
    top-level key of the options wins.  Without a [headers] key in the
    options the headers are the default headers; with one, the headers are
    the caller's value as a whole, whatever it is, and no default header is
    added to it: the headers of the config are then the default headers
    only if the caller's value is itself equal to them.  That config is
    what the first request interceptor (or the transport, when there is
    none) receives. *)
Theorem initial_config_shallow_merge options :
  (forall (k : string) (v : value),
      options !! k = Some v -> initial_config options !! k = Some v) /\
  (options !! "headers"%string = None ->
   initial_config options !! "headers"%string = Some (VObj defaultHeaders) /\
   config_header (initial_config options) "Content-Type" = Some (VStr "application/json") /\
   config_header (initial_config options) "Accept" = Some (VStr "application/json")) /\
  (forall headers : gmap string value,
      options !! "headers"%string = Some (VObj headers) ->
      forall name : string, config_header (initial_config options) name = headers !! name) /\
  (options !! "method"%string = None ->
   initial_config options !! "method"%string = Some (VStr "GET")) /\
  (forall c (net : network) (endpoint : string),
      head (request c net endpoint options).2 =
        Some (first_consumer c endpoint (VObj (initial_config options)))) /\
  initial_config options !! "headers"%string =
    Some (default (VObj defaultHeaders) (options !! "headers"%string)) /\
  (initial_config options !! "headers"%string = Some (VObj defaultHeaders) <->
   options !! "headers"%string = None \/
   options !! "headers"%string = Some (VObj defaultHeaders)) /\
  (forall v : value,
      options !! "headers"%string = Some v ->
      (forall headers : gmap string value, v <> VObj headers) ->
      forall name : string, config_header (initial_config options) name = None).
Proof.
  split; [|split; [|split; [|split; [|split; [|split; [|split]]]]]].
  - intros k v H. rewrite initial_config_lookup, H. reflexivity.
  - intros H. unfold config_header. rewrite initial_config_lookup, H.
    split; [|split]; reflexivity.
  - intros headers H name. unfold config_header.
    rewrite initial_config_lookup, H. reflexivity.
  - intros H. rewrite initial_config_lookup, H. reflexivity.
  - intros c net endpoint. apply request_with_first_event.
  - rewrite initial_config_lookup.
    destruct (options !! "headers"%string) as [v|]; reflexivity.
  - rewrite initial_config_lookup.
    destruct (options !! "headers"%string) as [v|].
    + split; [intros H; right; exact H | intros [H|H]; [discriminate H | exact H]].
    + split; [intros _; left; reflexivity | intros _; reflexivity].
  - intros v H Hv name. unfold config_header.
    rewrite initial_config_lookup, H.
    destruct v as [| |b|n|t|headers]; try reflexivity.
    exfalso. exact (Hv headers eq_refl).
Qed.

Lemma initial_config_shallow_merge_witness :
  initial_config {[ "body"%string := VStr "{}" ]} !! "headers"%string =
    Some (VObj defaultHeaders) /\
  config_header (initial_config {[ "method"%string := VStr "POST" ]}) "Content-Type" =
    Some (VStr "application/json") /\
  initial_config {[ "method"%string := VStr "POST" ]} !! "method"%string =
    Some (VStr "POST").
Proof.
  destruct (initial_config_shallow_merge {[ "body"%string := VStr "{}" ]})
    as (_ & Hdefaults & _).
  destruct (initial_config_shallow_merge {[ "method"%string := VStr "POST" ]})
    as (Hwins & Hdefaults' & _).
  split; [|split].
  - apply Hdefaults. reflexivity.
  - apply Hdefaults'. reflexivity.
  - apply Hwins. reflexivity.
Defined.

(** C4 as stated fails: a caller whose [headers] hold only [Authorization]
    gets a config whose headers hold only [Authorization]. *)
Lemma initial_config_headers_replaced :
  let options : gmap string value :=
    {[ "headers"%string := VObj {[ "Authorization"%string := VStr "Bearer abc" ]} ]} in
  initial_config options !! "headers"%string =
    Some (VObj {[ "Authorization"%string := VStr "Bearer abc" ]}) /\
  config_header (initial_config options) "Authorization" = Some (VStr "Bearer abc") /\
  config_header (initial_config options) "Content-Type" = None /\
  config_header (initial_config options) "Content-Type" <> Some (VStr "application/json").
Proof. cbv zeta. split; [reflexivity|]. split; [reflexivity|]. split; [reflexivity|discriminate]. Qed.

End InitialConfig.

(** ** Request interceptors *)

Section RequestInterceptors.

Implicit Types (c : client) (s : store) (config : value) (k : nat).

(** With a [const] config the loop ends in its first turn: the first
    interceptor is called, and either it throws or the assignment does. *)
Lemma apply_request_interceptors_const (interceptor : requestInterceptor)
    (rest : list requestInterceptor) k config s :
  apply_request_interceptors (interceptor :: rest) k
    {| b_decl := Const; b_val := config |} s =
  (Throw (const_error (interceptor s config).1), (interceptor s config).2,
   [EvRequestInterceptor k config]).
Proof.
  cbn [apply_request_interceptors b_val].
  destruct (interceptor s config) as [[v|e] s1]; reflexivity.
Qed.

(** With a [let] config the loop is the fold. *)
Lemma apply_request_interceptors_let (interceptors : list requestInterceptor) :
  forall k config s,
    apply_request_interceptors interceptors k {| b_decl := Let; b_val := config |} s =
    (match (fold_interceptors interceptors config s).1 with
     | Normal v => Normal {| b_decl := Let; b_val := v |}
     | Throw e => Throw e
     end,
     (fold_interceptors interceptors config s).2,
     fold_trace interceptors k config s).
Proof.
  induction interceptors as [|interceptor rest IH]; intros k config s; [reflexivity|].
  cbn [apply_request_interceptors fold_interceptors fold_trace b_val].
  destruct (interceptor s config) as [[v|e] s1]; [|reflexivity].
  cbn [assign b_decl]. rewrite IH. reflexivity.
Qed.

Lemma request_const_rejects c (interceptor : requestInterceptor)
    (rest : list requestInterceptor) (net : network) (endpoint : string)
    (options : gmap string value) :
  requestInterceptors c = interceptor :: rest ->
  request c net endpoint options =
    (Rejected (const_error (interceptor (st c) (VObj (initial_config options))).1),
     (interceptor (st c) (VObj (initial_config options))).2,
     [EvRequestInterceptor 0 (VObj (initial_config options))]).
Proof.
  intros Hl. unfold request, request_with. cbv zeta.
  rewrite Hl, apply_request_interceptors_const. reflexivity.
Qed.

Lemma fulfilled_loop_fetch_calls (interceptors : list responseInterceptor) :
  forall k (response : value) s,
    fetch_calls (fulfilled_loop interceptors k response s).2 = [].
Proof.
  induction interceptors as [|i rest IH]; intros k response s; [reflexivity|].
  cbn [fulfilled_loop]. destruct (onFulfilled i) as [f|]; [|apply IH].
  destruct (f s response) as [r s']. reflexivity.
Qed.

Lemma catch_block_fetch_calls (interceptors : list responseInterceptor) :
  forall k (error : value) s,
    fetch_calls (catch_block interceptors k error s).2 = [].
Proof.
  induction interceptors as [|i rest IH]; intros k error s; [reflexivity|].
  cbn [catch_block]. destruct (onRejected i) as [f|]; [|apply IH].
  destruct (f s error) as [r s']. reflexivity.
Qed.

Lemma fetch_calls_app (tr tr' : list event) :
  fetch_calls (tr ++ tr') = fetch_calls tr ++ fetch_calls tr'.
Proof. apply omap_app. Qed.

(** Without request interceptors the transport receives the initial
    config. *)
Lemma request_no_interceptor_fetches c (net : network) (endpoint : string)
    (options : gmap string value) :
  requestInterceptors c = [] ->
  fetch_calls (request c net endpoint options).2 =
    [(baseUrl (st c) +:+ endpoint, VObj (initial_config options))].
Proof.
  intros Hl. unfold request, request_with. cbv zeta. rewrite Hl.
  cbn [apply_request_interceptors app b_val].
  destruct (fetch_phase _ _ _) as [response|error].
  - pose proof (fulfilled_loop_fetch_calls (responseInterceptors c) 0 response (st c)) as H2.
    destruct (fulfilled_loop _ _ _ _) as [[r s2] tr2]. cbn [snd] in H2.
    destruct r as [v|e|e].
    + cbn [snd]. change (?x :: tr2) with ([x] ++ tr2).
      rewrite fetch_calls_app, H2. reflexivity.
    + cbn [snd]. change (?x :: tr2) with ([x] ++ tr2).
      rewrite fetch_calls_app, H2. reflexivity.
    + pose proof (catch_block_fetch_calls (responseInterceptors c) 0 e s2) as H3.
      destruct (catch_block _ _ _ _) as [[r' s3] tr3]. cbn [snd] in *.
      change (?x :: tr2 ++ tr3) with ([x] ++ tr2 ++ tr3).
      rewrite !fetch_calls_app, H2, H3. reflexivity.
  - pose proof (catch_block_fetch_calls (responseInterceptors c) 0 error (st c)) as H3.
    destruct (catch_block _ _ _ _) as [[r' s3] tr3]. cbn [snd] in *.
    change (?x :: tr3) with ([x] ++ tr3).
    rewrite fetch_calls_app, H3. reflexivity.
Qed.

End RequestInterceptors.

(** ** The class once loaded *)

Section Loaded.

Variable AuthController_logout : option (store -> store).
Variables JSON_stringify URLSearchParams_toString : value -> string.

#[local] Abbreviation run_op := (run_op AuthController_logout JSON_stringify URLSearchParams_toString).
#[local] Abbreviation run_ops := (run_ops AuthController_logout JSON_stringify URLSearchParams_toString).
#[local] Abbreviation loaded := (loaded AuthController_logout).
#[local] Abbreviation builtin_interceptor := (builtin_interceptor AuthController_logout).

Implicit Types (c : client) (s : store) (ops : list op).

Lemma extends_refl c : extends c c.
Proof. split; exists []; symmetry; apply app_nil_r. Qed.

Lemma extends_trans c1 c2 c3 : extends c1 c2 -> extends c2 c3 -> extends c1 c3.
Proof.
  intros [[l1 H1] [l1' H1']] [[l2 H2] [l2' H2']]. split.
  - exists (l1 ++ l2). rewrite H2, H1, app_assoc. reflexivity.
  - exists (l1' ++ l2'). rewrite H2', H1', app_assoc. reflexivity.
Qed.

Lemma extends_with_st c s : extends c (with_st s c).
Proof. split; exists []; symmetry; apply app_nil_r. Qed.

Lemma extends_addRequestInterceptor c (f : requestInterceptor) :
  extends c (addRequestInterceptor f c).
Proof. split; [exists [f] | exists []; symmetry; apply app_nil_r]; reflexivity. Qed.

Lemma extends_addResponseInterceptor c (onF onR : option callback) :
  extends c (addResponseInterceptor onF onR c).
Proof.
  split; [exists []; symmetry; apply app_nil_r|].
  exists [{| onFulfilled := onF; onRejected := onR |}]. reflexivity.
Qed.

Lemma extends_init c : extends c (init AuthController_logout c).
Proof.
  unfold init, setupInterceptors.
  eapply extends_trans; [apply extends_with_st|].
  eapply extends_trans; [apply extends_addRequestInterceptor|].
  apply extends_addResponseInterceptor.
Qed.

(** No call removes or reorders a registration. *)
Lemma run_op_extends c (o : op) : extends c (run_op c o).
Proof.
  destruct o; cbn [ApiClient.run_op];
    first [ apply extends_init
          | apply extends_addRequestInterceptor
          | apply extends_addResponseInterceptor
          | apply extends_with_st ].
Qed.

Lemma run_ops_extends ops : forall c, extends c (run_ops c ops).
Proof.
  induction ops as [|o ops IH]; intros c; [apply extends_refl|].
  cbn. eapply extends_trans; [apply run_op_extends | apply IH].
Qed.

(** Whatever the page does after the script has run, the interceptor lists
    begin with the two built-in registrations. *)
Lemma loaded_lists (ls : gmap string string) (href : string) ops :
  let c := run_ops (loaded ls href) ops in
  (exists l, requestInterceptors c = auth_interceptor :: l) /\
  (exists l, responseInterceptors c = builtin_interceptor :: l).
Proof.
  destruct (run_ops_extends ops (loaded ls href)) as [[l1 H1] [l2 H2]].
  cbn in H1, H2. split; eauto.
Qed.

Lemma auth_interceptor_store s (config : value) : (auth_interceptor s config).2 = s.
Proof.
  unfold auth_interceptor.
  destruct (authToken s) as [token|]; [|reflexivity].
  destruct (truthy (VStr token)); [|reflexivity].
  destruct (get_prop config "headers") as [headers|e]; [|reflexivity].
  destruct (set_prop headers "Authorization" _) as [headers'|e]; reflexivity.
Qed.

(** C1, on the code: [config] is declared [const], so once the script has
    run (one request interceptor is registered by [init]) every call of
    [request] ends in the first turn of the interceptor loop: the first
    interceptor alone is called, with the initial config, the promise is
    rejected, and the transport is never reached, whatever was registered
    after it. *)
Theorem request_after_init_rejects (ls : gmap string string) (href : string) ops
    (net : network) (endpoint : string) (options : gmap string value) :
  let c := run_ops (loaded ls href) ops in
  let config := VObj (initial_config options) in
  request c net endpoint options =
    (Rejected (const_error (auth_interceptor (st c) config).1), st c,
     [EvRequestInterceptor 0 config]) /\
  fetch_calls (request c net endpoint options).2 = [].
Proof.
  intros c config.
  destruct (loaded_lists ls href ops) as [[l Hl] _]. fold c in Hl.
  rewrite (request_const_rejects c _ _ net endpoint options Hl).
  rewrite auth_interceptor_store. split; reflexivity.
Qed.

End Loaded.

(** The defect at a concrete call: a health check right after loading,
    with a second request interceptor registered by the page.  The second
    interceptor never sees the config and nothing is sent. *)
Example request_health_check_rejects (net : network) (second : requestInterceptor) :
  let c := addRequestInterceptor second (loaded None ∅ "") in
  request c net "/health" ∅ =
    (Rejected (TypeError "Assignment to constant variable."), st c,
     [EvRequestInterceptor 0 (VObj (initial_config ∅))]).
Proof. reflexivity. Qed.

(** With [config] declared [let] a call on the loaded class goes through:
    the built-in pair answers, and an interceptor registered later is still
    never called. *)
Example request_with_let_late_registration :
  let c := run_ops None stringify_sample query_sample (loaded None ∅ "") late_registration in
  request_with Let c online "/ping" ∅ =
    (Resolved pong, st c,
     [EvRequestInterceptor 0 (VObj (initial_config ∅));
      EvFetch "https://your-google-cloud-function-url.com/api/ping" (VObj (initial_config ∅));
      EvOnFulfilled 0 pong]) /\
  request_with Let c offline "/ping" ∅ =
    (Rejected (VStr "Failed to fetch"), st c,
     [EvRequestInterceptor 0 (VObj (initial_config ∅));
      EvFetch "https://your-google-cloud-function-url.com/api/ping" (VObj (initial_config ∅));
      EvOnRejected 0 (VStr "Failed to fetch")]).
Proof. split; reflexivity. Qed.

(** Declared with [let], the same loop is the fold the comment announces:
    the transport receives the config returned by the last interceptor. *)
Lemma request_with_let_folds (c : client) (net : network) (endpoint : string)
    (options : gmap string value) (config : value) (s1 : store) :
  fold_interceptors (requestInterceptors c) (VObj (initial_config options)) (st c) =
    (Normal config, s1) ->
  exists tr : list event,
    (request_with Let c net endpoint options).2 =
      fold_trace (requestInterceptors c) 0 (VObj (initial_config options)) (st c) ++
      EvFetch (baseUrl (st c) +:+ endpoint) config :: tr.
Proof.
  intros Hfold. unfold request_with. cbv zeta.
  rewrite apply_request_interceptors_let, Hfold. cbn [fst snd b_val].
  destruct (fetch_phase _ _ _) as [response|error].
  - destruct (fulfilled_loop _ _ _ _) as [[[v|e|e] s2] tr2].
    + eexists. reflexivity.
    + eexists. reflexivity.
    + destruct (catch_block _ _ _ _) as [[r' s3] tr3]. eexists. reflexivity.
  - destruct (catch_block _ _ _ _) as [[r' s3] tr3]. eexists. reflexivity.
Qed.

(** ** Response interceptors *)

Section ResponseInterceptors.

Implicit Types (c : client) (s : store) (k : nat) (f : callback)
  (interceptors : list responseInterceptor).

Lemma first_with_head (cb : responseInterceptor -> option callback)
    (i : responseInterceptor) interceptors f :
  cb i = Some f -> first_with cb (i :: interceptors) 0 f.
Proof.
  intros H. split; [exists i; split; [reflexivity | exact H]|].
  intros j i' Hj. lia.
Qed.

Lemma first_with_cons_inv (cb : responseInterceptor -> option callback)
    (i : responseInterceptor) interceptors k f :
  first_with cb (i :: interceptors) k f ->
  (k = 0%nat /\ cb i = Some f) \/
  (exists k', k = S k' /\ cb i = None /\ first_with cb interceptors k' f).
Proof.
  intros [(i0 & Hk & Hf) Hmin]. destruct k as [|k'].
  - left. cbn in Hk. injection Hk as ->. split; [reflexivity | exact Hf].
  - right. exists k'. split; [reflexivity|]. split.
    + apply (Hmin 0%nat i); [lia | reflexivity].
    + split; [exists i0; split; [exact Hk | exact Hf]|].
      intros j i' Hj Hi'. apply (Hmin (S j) i'); [lia | exact Hi'].
Qed.

Lemma none_with_cons_inv (cb : responseInterceptor -> option callback)
    (i : responseInterceptor) interceptors :
  none_with cb (i :: interceptors) -> cb i = None /\ none_with cb interceptors.
Proof.
  intros H. split; [apply H; left; reflexivity|].
  intros i' Hi'. apply H. right. exact Hi'.
Qed.

Lemma fulfilled_loop_first interceptors :
  forall k0 k f (response : value) s,
    first_with onFulfilled interceptors k f ->
    fulfilled_loop interceptors k0 response s =
      ((f s response).1, (f s response).2, [EvOnFulfilled (k0 + k) response]).
Proof.
  induction interceptors as [|i rest IH]; intros k0 k f response s Hfirst.
  - destruct Hfirst as [(i & Hi & _) _]. rewrite lookup_nil in Hi. discriminate Hi.
  - cbn [fulfilled_loop].
    destruct (first_with_cons_inv _ _ _ _ _ Hfirst) as [[-> Hf]|(k' & -> & Hnone & Hrest)].
    + rewrite Hf, Nat.add_0_r. destruct (f s response); reflexivity.
    + rewrite Hnone, (IH (S k0) k' f response s Hrest).
      replace (S k0 + k')%nat with (k0 + S k')%nat by lia. reflexivity.
Qed.

Lemma fulfilled_loop_none interceptors :
  forall k0 (response : value) s,
    none_with onFulfilled interceptors ->
    fulfilled_loop interceptors k0 response s = (CbReturn response, s, []).
Proof.
  induction interceptors as [|i rest IH]; intros k0 response s Hnone; [reflexivity|].
  destruct (none_with_cons_inv _ _ _ Hnone) as [Hi Hrest].
  cbn [fulfilled_loop]. rewrite Hi. apply IH. exact Hrest.
Qed.

Lemma catch_block_first interceptors :
  forall k0 k f (error : value) s,
    first_with onRejected interceptors k f ->
    catch_block interceptors k0 error s =
      (settle (f s error).1, (f s error).2, [EvOnRejected (k0 + k) error]).
Proof.
  induction interceptors as [|i rest IH]; intros k0 k f error s Hfirst.
  - destruct Hfirst as [(i & Hi & _) _]. rewrite lookup_nil in Hi. discriminate Hi.
  - cbn [catch_block].
    destruct (first_with_cons_inv _ _ _ _ _ Hfirst) as [[-> Hf]|(k' & -> & Hnone & Hrest)].
    + rewrite Hf, Nat.add_0_r. destruct (f s error); reflexivity.
    + rewrite Hnone, (IH (S k0) k' f error s Hrest).
      replace (S k0 + k')%nat with (k0 + S k')%nat by lia. reflexivity.
Qed.

Lemma catch_block_none interceptors :
  forall k0 (error : value) s,
    none_with onRejected interceptors ->
    catch_block interceptors k0 error s = (Rejected error, s, []).
Proof.
  induction interceptors as [|i rest IH]; intros k0 error s Hnone; [reflexivity|].
  destruct (none_with_cons_inv _ _ _ Hnone) as [Hi Hrest].
  cbn [catch_block]. rewrite Hi. apply IH. exact Hrest.
Qed.

(** The failure path calls no success callback. *)
Lemma catch_block_fulfilled_calls interceptors :
  forall k0 (error : value) s,
    fulfilled_calls (catch_block interceptors k0 error s).2 = [].
Proof.
  induction interceptors as [|i rest IH]; intros k0 error s; [reflexivity|].
  cbn [catch_block]. destruct (onRejected i) as [f|]; [|apply IH].
  destruct (f s error) as [r s']. reflexivity.
Qed.


Lemma receives_intro c (net : network) (endpoint : string) (options : gmap string value) :
  requestInterceptors c = [] ->
  receives c net endpoint options
    (fetch_phase net (baseUrl (st c) +:+ endpoint) (VObj (initial_config options))).
Proof.
  intros Hl. eexists _, _. split; [|reflexivity].
  apply request_no_interceptor_fetches. exact Hl.
Qed.

Lemma answered_inv c (net : network) (endpoint : string) (options : gmap string value)
    (resp : Response) :
  answered c net endpoint options resp ->
  requestInterceptors c = [] /\
  net (baseUrl (st c) +:+ endpoint) (VObj (initial_config options)) = Fetched resp.
Proof.
  intros (url & config & Hcalls & Hnet).
  destruct (requestInterceptors c) as [|interceptor rest] eqn:Hl.
  - rewrite (request_no_interceptor_fetches c net endpoint options Hl) in Hcalls.
    injection Hcalls as <- <-. split; [reflexivity | exact Hnet].
  - rewrite (request_const_rejects c interceptor rest net endpoint options Hl) in Hcalls.
    discriminate.
Qed.

Lemma answered_intro c (net : network) (endpoint : string) (options : gmap string value)
    (resp : Response) :
  requestInterceptors c = [] ->
  net (baseUrl (st c) +:+ endpoint) (VObj (initial_config options)) = Fetched resp ->
  answered c net endpoint options resp.
Proof.
  intros Hl Hnet. eexists _, _.
  split; [apply request_no_interceptor_fetches; exact Hl | exact Hnet].
Qed.

End ResponseInterceptors.

Section Pipeline.

Implicit Types (c : client) (k : nat) (f : callback).

(** C2, as the code has it: take a call that the transport answers (no
    transport error).  When the body of the answer is read, the only
    success callback invoked is that of the first interceptor, in
    registration order, that defines one.  If that callback returns (a
    value, or a promise) its result is the result of [request].  If it
    throws, the [catch] block of [request] takes the error: the failure
    path runs on it, and still no other success callback is called.  If no
    interceptor defines a success callback the response object itself is
    returned.  When reading the body throws (an answer announced as JSON
    that does not parse), there is no response object: no success callback
    is invoked, the error goes to the failure path (the first interceptor
    that defines a failure callback, whose result is the result of
    [request]), and with no failure callback [request] is rejected with
    the error, also when no interceptor defines a success callback. *)
Theorem request_success_first_match c (net : network) (endpoint : string)
    (options : gmap string value) (resp : Response) :
  answered c net endpoint options resp ->
  let url := baseUrl (st c) +:+ endpoint in
  let config := VObj (initial_config options) in
  (forall d : value,
      parse_body resp = Normal d ->
      let response := responseObj resp d in
      (forall k f,
          first_with onFulfilled (responseInterceptors c) k f ->
          let r := (f (st c) response).1 in
          let s' := (f (st c) response).2 in
          fulfilled_calls (request c net endpoint options).2 = [k] /\
          ((forall e : value, r <> CbThrow e) ->
           request c net endpoint options =
             (settle r, s', [EvFetch url config; EvOnFulfilled k response])) /\
          (forall e : value,
              r = CbThrow e ->
              request c net endpoint options =
                let '(r', s3, tr3) := catch_block (responseInterceptors c) 0 e s' in
                (r', s3, [EvFetch url config; EvOnFulfilled k response] ++ tr3))) /\
      (none_with onFulfilled (responseInterceptors c) ->
       request c net endpoint options = (Resolved response, st c, [EvFetch url config]))) /\
  (forall e : value,
      parse_body resp = Throw e ->
      fulfilled_calls (request c net endpoint options).2 = [] /\
      (forall k f,
          first_with onRejected (responseInterceptors c) k f ->
          request c net endpoint options =
            (settle (f (st c) e).1, (f (st c) e).2,
             [EvFetch url config; EvOnRejected k e])) /\
      (none_with onRejected (responseInterceptors c) ->
       request c net endpoint options = (Rejected e, st c, [EvFetch url config]))).
Proof.
  intros Hans url config.
  destruct (answered_inv _ _ _ _ _ Hans) as [Hl Hnet].
  split.
  - intros d Hparse response.
    assert (request c net endpoint options =
              let '(r, s2, tr2) :=
                fulfilled_loop (responseInterceptors c) 0 response (st c) in
              match r with
              | CbReturn v => (Resolved v, s2, EvFetch url config :: tr2)
              | CbReject e => (Rejected e, s2, EvFetch url config :: tr2)
              | CbThrow error =>
                  let '(r', s3, tr3) := catch_block (responseInterceptors c) 0 error s2 in
                  (r', s3, EvFetch url config :: tr2 ++ tr3)
              end) as Hreq.
    { unfold request, request_with. cbv zeta. rewrite Hl.
      cbn [apply_request_interceptors app b_val]. unfold fetch_phase.
      rewrite Hnet, Hparse. reflexivity. }
    split.
    + intros k f Hfirst r s'. rewrite Hreq.
      rewrite (fulfilled_loop_first _ 0 k f response (st c) Hfirst).
      fold r s'. cbn [Nat.add].
      split; [|split].
      * destruct r as [v|e|e]; try reflexivity.
        pose proof (catch_block_fulfilled_calls (responseInterceptors c) 0 e s') as Hc.
        destruct (catch_block _ _ _ _) as [[r' s3] tr3]. cbn [snd] in *.
        unfold fulfilled_calls in *. cbn [app omap list_omap]. rewrite Hc. reflexivity.
      * intros Hr. destruct r as [v|e|e]; try reflexivity.
        exfalso. exact (Hr e eq_refl).
      * intros e ->. reflexivity.
    + intros Hnone. rewrite Hreq, (fulfilled_loop_none _ 0 response (st c) Hnone).
      reflexivity.
  - intros e Hparse.
    assert (request c net endpoint options =
              let '(r', s3, tr3) := catch_block (responseInterceptors c) 0 e (st c) in
              (r', s3, EvFetch url config :: tr3)) as Hreq.
    { unfold request, request_with. cbv zeta. rewrite Hl.
      cbn [apply_request_interceptors app b_val]. unfold fetch_phase.
      rewrite Hnet, Hparse. reflexivity. }
    split; [|split].
    + rewrite Hreq.
      pose proof (catch_block_fulfilled_calls (responseInterceptors c) 0 e (st c)) as Hc.
      destruct (catch_block _ _ _ _) as [[r' s3] tr3]. cbn [snd] in *.
      unfold fulfilled_calls in *. cbn [omap list_omap]. exact Hc.
    + intros k f Hfirst.
      rewrite Hreq, (catch_block_first _ 0 k f e (st c) Hfirst). reflexivity.
    + intros Hnone. rewrite Hreq, (catch_block_none _ 0 e (st c) Hnone). reflexivity.
Qed.

Lemma request_success_first_match_witness :
  let interceptors :=
    [ {| onFulfilled := None; onRejected := Some (returns "R") |};
      {| onFulfilled := Some (returns "A"); onRejected := None |};
      {| onFulfilled := Some (returns "B"); onRejected := None |} ] in
  request (bare interceptors) online "/ping" ∅ =
    (Resolved (VStr "A"), st (bare interceptors),
     [EvFetch "https://your-google-cloud-function-url.com/api/ping" (VObj (initial_config ∅));
      EvOnFulfilled 1 pong]) /\
  fulfilled_calls (request (bare interceptors) online "/ping" ∅).2 = [1%nat] /\
  request (bare []) online "/ping" ∅ =
    (Resolved pong, st (bare []),
     [EvFetch "https://your-google-cloud-function-url.com/api/ping" (VObj (initial_config ∅))]) /\
  request (bare []) garbled "/ping" ∅ =
    (Rejected (VStr "SyntaxError"), st (bare []),
     [EvFetch "https://your-google-cloud-function-url.com/api/ping" (VObj (initial_config ∅))]) /\
  fulfilled_calls (request (bare interceptors) garbled "/ping" ∅).2 = [].
Proof.
  intros interceptors.
  assert (answered (bare interceptors) online "/ping" ∅ (text_response "pong")) as Hans
    by (apply (answered_intro (bare interceptors)); reflexivity).
  assert (answered (bare []) online "/ping" ∅ (text_response "pong")) as Hans0
    by (apply (answered_intro (bare [])); reflexivity).
  assert (answered (bare []) garbled "/ping" ∅ garbled_response) as Hgarbled0
    by (apply (answered_intro (bare [])); reflexivity).
  assert (answered (bare interceptors) garbled "/ping" ∅ garbled_response) as Hgarbled
    by (apply (answered_intro (bare interceptors)); reflexivity).
  assert (first_with onFulfilled (responseInterceptors (bare interceptors)) 1 (returns "A"))
    as Hfirst.
  { split; [eexists; split; reflexivity|].
    intros j i Hj Hi. destruct j as [|j]; [|lia]. cbn in Hi. injection Hi as <-. reflexivity. }
  destruct (request_success_first_match _ _ _ _ _ Hans) as [Hread _].
  destruct (Hread (VStr "pong") eq_refl) as [Hmatch _].
  destruct (Hmatch 1%nat (returns "A") Hfirst) as (Hcalls & Hret & _).
  split; [apply Hret; intros e; discriminate|].
  split; [exact Hcalls|].
  destruct (request_success_first_match _ _ _ _ _ Hans0) as [Hread0 _].
  destruct (Hread0 (VStr "pong") eq_refl) as [_ Hnone].
  split; [apply Hnone; intros i []|].
  destruct (request_success_first_match _ _ _ _ _ Hgarbled0) as [_ Hthrow0].
  destruct (Hthrow0 (VStr "SyntaxError") eq_refl) as (_ & _ & Hraised).
  split; [apply Hraised; intros i []|].
  destruct (request_success_first_match _ _ _ _ _ Hgarbled) as [_ Hthrow].
  destruct (Hthrow (VStr "SyntaxError") eq_refl) as (Hnocall & _).
  exact Hnocall.
Defined.

(** C2 as stated fails when the first success callback throws: the error
    is caught by [request] itself and handed to the first failure
    callback, here that of another interceptor, whose result is
    returned. *)
Lemma request_success_callback_throws :
  let A := {| onFulfilled := Some (throws (VStr "boom")); onRejected := None |} in
  let B := {| onFulfilled := None; onRejected := Some (returns "recovered") |} in
  receives (bare [A; B]) online "/ping" ∅ (Normal pong) /\
  first_with onFulfilled (responseInterceptors (bare [A; B])) 0 (throws (VStr "boom")) /\
  request (bare [A; B]) online "/ping" ∅ =
    (Resolved (VStr "recovered"), st (bare [A; B]),
     [EvFetch "https://your-google-cloud-function-url.com/api/ping" (VObj (initial_config ∅));
      EvOnFulfilled 0 pong;
      EvOnRejected 1 (VStr "boom")]) /\
  (request (bare [A; B]) online "/ping" ∅).1.1 <>
    settle (throws (VStr "boom") (st (bare [A; B])) pong).1.
Proof.
  intros A B. split; [|split; [|split]].
  - apply (receives_intro (bare [A; B])). reflexivity.
  - apply first_with_head. reflexivity.
  - reflexivity.
  - discriminate.
Qed.



End Pipeline.

(** ** After initialisation *)

Section AfterInit.

Variable AuthController_logout : option (store -> store).
Variables JSON_stringify URLSearchParams_toString : value -> string.

#[local] Abbreviation run_ops' :=
  (run_ops AuthController_logout JSON_stringify URLSearchParams_toString).
#[local] Abbreviation loaded' := (loaded AuthController_logout).
#[local] Abbreviation builtin := (builtin_interceptor AuthController_logout).
#[local] Abbreviation handleUnauthorized' := (handleUnauthorized AuthController_logout).

Implicit Types (c : client) (s : store) (ops : list op) (k : nat).

Lemma apply_request_interceptors_response_calls (interceptors : list requestInterceptor) :
  forall k (config : binding) s,
    fulfilled_calls (apply_request_interceptors interceptors k config s).2 = [] /\
    rejected_calls (apply_request_interceptors interceptors k config s).2 = [].
Proof.
  induction interceptors as [|interceptor rest IH]; intros k config s; [split; reflexivity|].
  cbn [apply_request_interceptors].
  destruct (interceptor s (b_val config)) as [[v|e] s1]; [|split; reflexivity].
  destruct (assign config v) as [config'|e]; [|split; reflexivity].
  specialize (IH (S k) config' s1).
  destruct (apply_request_interceptors rest (S k) config' s1) as [[r' s2] tr].
  exact IH.
Qed.

(** When the first response interceptor defines both callbacks, no other
    response interceptor is ever called, whatever the declaration of
    [config]. *)
Lemma request_with_first_pair (d : decl) c (i0 : responseInterceptor)
    (l : list responseInterceptor) (f0 g0 : callback) (net : network)
    (endpoint : string) (options : gmap string value) :
  responseInterceptors c = i0 :: l ->
  onFulfilled i0 = Some f0 ->
  onRejected i0 = Some g0 ->
  Forall (fun k => k = 0%nat)
    (fulfilled_calls (request_with d c net endpoint options).2 ++
     rejected_calls (request_with d c net endpoint options).2).
Proof.
  intros Hl Hf Hg. unfold request_with. cbv zeta.
  match goal with
  | |- context [apply_request_interceptors ?l0 ?k ?b ?s] =>
      destruct (apply_request_interceptors_response_calls l0 k b s) as [H1 H2];
      destruct (apply_request_interceptors l0 k b s) as [[r s1] tr1]
  end.
  cbn [snd] in H1, H2. unfold fulfilled_calls, rejected_calls in *.
  destruct r as [config|e]; cbn [snd].
  2:{ rewrite H1, H2. constructor. }
  rewrite Hl. cbn [fulfilled_loop catch_block]. rewrite Hf, Hg.
  destruct (fetch_phase _ _ _) as [response|error].
  - destruct (f0 s1 response) as [[v|e|e] s2]; cbn [snd].
    + rewrite !omap_app, H1, H2. cbn. repeat constructor.
    + rewrite !omap_app, H1, H2. cbn. repeat constructor.
    + destruct (g0 s2 e) as [r' s3]. cbn [snd].
      rewrite !omap_app, H1, H2. cbn. repeat constructor.
  - destruct (g0 s1 error) as [r' s3]. cbn [snd].
    rewrite !omap_app, H1, H2. cbn. repeat constructor.
Qed.

(** C5: once [init] has run on the freshly defined class, and whatever is
    called afterwards, the list of response interceptors begins with the
    built-in pair, whose success callback is the identity; every response
    callback that a call of [request] invokes sits at position 0 of the
    list, so the callbacks of an interceptor registered later (at a
    position from 1 on) are never invoked.  This holds for [request]
    ([request_with Const]) and would hold with [config] declared
    [let]. *)
Theorem later_response_interceptors_never_run (ls : gmap string string) (href : string)
    ops (d : decl) (net : network) (endpoint : string) (options : gmap string value) :
  let c := run_ops' (loaded' ls href) ops in
  (exists l : list responseInterceptor, responseInterceptors c = builtin :: l) /\
  onFulfilled builtin = Some builtin_onFulfilled /\
  (forall s (response : value), builtin_onFulfilled s response = (CbReturn response, s)) /\
  Forall (fun k => k = 0%nat)
    (fulfilled_calls (request_with d c net endpoint options).2 ++
     rejected_calls (request_with d c net endpoint options).2) /\
  fulfilled_calls (request c net endpoint options).2 = [] /\
  rejected_calls (request c net endpoint options).2 = [].
Proof.
  intros c.
  destruct (loaded_lists AuthController_logout JSON_stringify URLSearchParams_toString
              ls href ops) as [[l1 Hreq] [l Hl]].
  fold c in Hreq, Hl.
  split; [exists l; exact Hl|].
  split; [reflexivity|].
  split; [reflexivity|].
  split; [apply (request_with_first_pair d c builtin l builtin_onFulfilled
                   (builtin_onRejected AuthController_logout) net endpoint options Hl);
          reflexivity|].
  rewrite (request_const_rejects c _ _ net endpoint options Hreq).
  split; reflexivity.
Qed.

(** *** Unauthorized responses *)

Lemma strict_eq_num_true (v : value) (n : Z) : strict_eq_num v n = true <-> v = VNum n.
Proof.
  split.
  - destruct v; cbn; try discriminate. intros H. f_equal. lia.
  - intros ->. cbn. lia.
Qed.

Lemma builtin_onRejected_unauthorized s (error : value) :
  attached_status error = VNum 401 ->
  builtin_onRejected AuthController_logout s error = (CbReject error, handleUnauthorized' s).
Proof.
  unfold attached_status, builtin_onRejected. intros H.
  destruct error as [| | | | |o]; try discriminate H.
  cbn [get_prop get_prop_opt] in *. rewrite H. reflexivity.
Qed.

Lemma builtin_onRejected_other s (error : value) :
  attached_status error <> VNum 401 ->
  (builtin_onRejected AuthController_logout s error).2 = s.
Proof.
  unfold attached_status, builtin_onRejected. intros H.
  destruct error as [| | | | |o]; try reflexivity.
  cbn [get_prop get_prop_opt] in *.
  destruct (strict_eq_num _ 401) eqn:E; [|reflexivity].
  apply strict_eq_num_true in E. contradiction.
Qed.

Lemma handleUnauthorized_redirect s :
  handleUnauthorized' s =
    let s0 :=
      set_localStorage
        (delete "user"%string (delete "authToken"%string (localStorage s)))
        (set_authToken None s) in
    match AuthController_logout with
    | Some logout => logout s0
    | None => set_location_href "../index.html" s0
    end.
Proof. reflexivity. Qed.

(** C6: on the class once loaded, an error that reaches the [catch] block
    with an attached response of status 401 clears the auth state (the
    token of the class, the [authToken] and [user] storage entries) and
    goes to a login context: [AuthController.logout()] when that
    collaborator exists, the index page otherwise; the error is then
    re-raised.  For any other error the state is left as it was. *)
Theorem unauthorized_is_the_only_recovery (ls : gmap string string) (href : string) ops
    (error : value) s :
  let c := run_ops' (loaded' ls href) ops in
  (attached_status error = VNum 401 ->
   catch_block (responseInterceptors c) 0 error s =
     (Rejected error, handleUnauthorized' s, [EvOnRejected 0 error]) /\
   (AuthController_logout = None ->
    signed_out (handleUnauthorized' s) /\
    location_href (handleUnauthorized' s) = "../index.html"%string /\
    cache (handleUnauthorized' s) = cache s /\
    baseUrl (handleUnauthorized' s) = baseUrl s) /\
   (forall logout : store -> store,
       AuthController_logout = Some logout ->
       exists s0 : store,
         signed_out s0 /\ cache s0 = cache s /\ location_href s0 = location_href s /\
         handleUnauthorized' s = logout s0)) /\
  (attached_status error <> VNum 401 ->
   (catch_block (responseInterceptors c) 0 error s).1.2 = s).
Proof.
  intros c.
  destruct (loaded_lists AuthController_logout JSON_stringify URLSearchParams_toString
              ls href ops) as [_ [l Hl]].
  fold c in Hl. rewrite Hl. cbn [catch_block builtin_interceptor onRejected].
  split.
  - intros H401. rewrite (builtin_onRejected_unauthorized s error H401).
    split; [reflexivity|]. rewrite handleUnauthorized_redirect. cbv zeta. split.
    + intros ->. unfold signed_out. cbn.
      rewrite lookup_delete_ne by discriminate.
      rewrite !lookup_delete_eq. repeat split.
    + intros logout ->. eexists. split; [|split; [|split]]; [| | |reflexivity].
      * unfold signed_out. cbn. rewrite lookup_delete_ne by discriminate.
        rewrite !lookup_delete_eq. repeat split.
      * reflexivity.
      * reflexivity.
  - intros Hother. pose proof (builtin_onRejected_other s error Hother) as H.
    destruct (builtin_onRejected AuthController_logout s error) as [r s']. exact H.
Qed.

End AfterInit.

Lemma unauthorized_is_the_only_recovery_witness :
  let c := run_ops None stringify_sample query_sample
             (loaded None session_storage "/pages/dashboard.html") late_registration in
  let s := st c in
  let s' := (catch_block (responseInterceptors c) 0 (http_error 401) s).1.2 in
  authToken s = Some "abc"%string /\
  s' = handleUnauthorized None s /\
  signed_out s' /\
  location_href s' = "../index.html"%string /\
  (catch_block (responseInterceptors c) 0 (http_error 500) s).1.2 = s.
Proof.
  intros c s s'.
  pose proof (unauthorized_is_the_only_recovery None stringify_sample query_sample
                session_storage "/pages/dashboard.html" late_registration (http_error 401) s)
    as [H401 _].
  pose proof (unauthorized_is_the_only_recovery None stringify_sample query_sample
                session_storage "/pages/dashboard.html" late_registration (http_error 500) s)
    as [_ Hother].
  fold c in H401, Hother.
  destruct (H401 eq_refl) as (Hrun & Hnone & _).
  destruct (Hnone eq_refl) as (Hout & Hhref & _).
  assert (s' = handleUnauthorized None s) as Hs' by (unfold s'; rewrite Hrun; reflexivity).
  split; [reflexivity|].
  split; [exact Hs'|].
  rewrite Hs'.
  split; [exact Hout|].
  split; [exact Hhref|].
  apply Hother. discriminate.
Defined.

(** A response with status 401 is a response, not an error: it takes the
    success path (shown with [config] declared [let], so that the transport
    is reached), the built-in pair returns it with [ok = false], and the
    session is left in place. *)
Example unauthorized_response_keeps_session :
  let c := loaded None session_storage "/pages/dashboard.html" in
  let run := request_with Let c refusing "/user/profile" ∅ in
  parse_body unauthorized_response = Normal (VObj {[ "message"%string := VStr "token expired" ]}) /\
  (exists envelope : gmap string value,
      run.1.1 = Resolved (VObj envelope) /\
      envelope !! "status"%string = Some (VNum 401) /\
      envelope !! "ok"%string = Some (VBool false)) /\
  run.1.2 = st c /\
  authToken run.1.2 = Some "abc"%string /\
  rejected_calls run.2 = [].
Proof.
  cbv zeta. split; [reflexivity|]. split; [|repeat split; reflexivity].
  eexists. split; [reflexivity|]. split; reflexivity.
Qed.

(** ** The read-through helper *)

Section ReadThrough.

Variable AuthController_logout : option (store -> store).
Variables JSON_stringify URLSearchParams_toString : value -> string.

#[local] Abbreviation getWithCache' := (getWithCache JSON_stringify URLSearchParams_toString).
#[local] Abbreviation get' := (get URLSearchParams_toString).
#[local] Abbreviation cache_key' := (cache_key JSON_stringify).

Implicit Types (c : client) (s : store) (ops : list op) (params : value)
  (cacheKey : option string) (now : Z).

Lemma cache_key_explicit (endpoint : string) params (k : string) :
  k <> ""%string -> cache_key' endpoint params (Some k) = k.
Proof.
  intros Hk. unfold cache_key. cbn [truthy].
  destruct (String.eqb_spec k ""); [contradiction | reflexivity].
Qed.

Lemma cache_key_composite (endpoint : string) params :
  cache_key' endpoint params None = endpoint +:+ JSON_stringify (or_empty params) /\
  cache_key' endpoint params (Some ""%string) = endpoint +:+ JSON_stringify (or_empty params).
Proof. split; reflexivity. Qed.

(** A truthy cached value is returned tagged, and nothing is sent. *)
Lemma getWithCache_hit c (net : network) (endpoint : string) params cacheKey now now' :
  let key := cache_key' endpoint params cacheKey in
  truthy (getCache key now (st c)).1 = true ->
  getWithCache' c net endpoint params cacheKey now now' =
    (Resolved (VObj {[ "data"%string := (getCache key now (st c)).1;
                       "fromCache"%string := VBool true ]}),
     (getCache key now (st c)).2, []).
Proof.
  intros key Hhit. unfold getWithCache. fold key.
  destruct (getCache key now (st c)) as [cached s1]. cbn [fst snd] in *.
  rewrite Hhit. reflexivity.
Qed.

(** On a miss, when the GET resolves to an object, its [data] property
    alone is stored, with the default time to live, and the object is
    returned. *)
Lemma getWithCache_miss c (net : network) (endpoint : string) params cacheKey now now'
    (o : gmap string value) (s2 : store) (tr : list event) :
  let key := cache_key' endpoint params cacheKey in
  truthy (getCache key now (st c)).1 = false ->
  get' (with_st (getCache key now (st c)).2 c) net endpoint params =
    (Resolved (VObj o), s2, tr) ->
  getWithCache' c net endpoint params cacheKey now now' =
    (Resolved (VObj o),
     setCache key (default VUndefined (o !! "data"%string)) None now' s2, tr).
Proof.
  intros key Hmiss Hget. unfold getWithCache. fold key.
  destruct (getCache key now (st c)) as [cached s1]. cbn [fst snd] in *.
  rewrite Hmiss, Hget. reflexivity.
Qed.

(** C8, on the code: once the script has run, a miss never performs the
    GET.  The helper returns the tagged cached value on a hit; on a miss
    the underlying [request] is rejected in its interceptor loop ([config]
    is a [const]), so nothing is sent, nothing is stored and no response
    object is returned. *)
Theorem getWithCache_after_init (ls : gmap string string) (href : string) ops
    (net : network) (endpoint : string) params cacheKey now now' :
  let c := run_ops AuthController_logout JSON_stringify URLSearchParams_toString
             (loaded AuthController_logout ls href) ops in
  let key := cache_key' endpoint params cacheKey in
  let cached := (getCache key now (st c)).1 in
  let s1 := (getCache key now (st c)).2 in
  let config := VObj (initial_config {[ "method"%string := VStr "GET" ]}) in
  getWithCache' c net endpoint params cacheKey now now' =
    if truthy cached
    then (Resolved (VObj {[ "data"%string := cached; "fromCache"%string := VBool true ]}),
          s1, [])
    else (Rejected (const_error (auth_interceptor s1 config).1), s1,
          [EvRequestInterceptor 0 config]).
Proof.
  intros c key cached s1 config.
  destruct (loaded_lists AuthController_logout JSON_stringify URLSearchParams_toString
              ls href ops) as [[l Hl] _].
  fold c in Hl.
  destruct (truthy cached) eqn:Hc.
  - subst cached s1. apply getWithCache_hit. exact Hc.
  - unfold getWithCache. fold key.
    subst cached s1. destruct (getCache key now (st c)) as [cached s1].
    cbn [fst snd] in *. rewrite Hc. unfold get.
    rewrite (request_const_rejects (with_st s1 c) auth_interceptor l net _ _ Hl).
    cbn [with_st st]. rewrite auth_interceptor_store. reflexivity.
Qed.

End ReadThrough.

(** The miss at a concrete call, right after loading: rejected, nothing
    sent, the cache still empty. *)
Example getWithCache_miss_rejects :
  let c := loaded None ∅ "" in
  getWithCache stringify_sample query_sample c online "/workouts" (VObj ∅) None 1000 1001 =
    (Rejected (TypeError "Assignment to constant variable."), st c,
     [EvRequestInterceptor 0 (VObj (initial_config {[ "method"%string := VStr "GET" ]}))]) /\
  cache (st c) = ∅.
Proof. split; reflexivity. Qed.

(** Without request interceptors the helper works as described: the miss
    sends the GET, stores the [data] of the response object and returns the
    object; the next call is a hit and returns the other shape. *)
Example getWithCache_bare_miss_then_hit :
  let c := bare [] in
  let miss :=
    getWithCache stringify_sample query_sample c online "/ping" (VObj ∅) None 1000 1001 in
  let hit :=
    getWithCache stringify_sample query_sample (with_st miss.1.2 c) online "/ping" (VObj ∅)
      None 2000 2001 in
  miss.1.1 = Resolved pong /\
  cache miss.1.2 !! "/ping{}"%string =
    Some {| data := VStr "pong"; timestamp := 1001; timeout := 300000 |} /\
  hit.1.1 = Resolved (VObj {[ "data"%string := VStr "pong"; "fromCache"%string := VBool true ]}) /\
  hit.2 = [].
Proof. repeat split; reflexivity. Qed.

(** * Further properties of the utilities *)

Section StringsAndArrays.

Context {A : Type}.
Implicit Types (s array : list A) (str suffix : list ascii).

Lemma slice_nonneg s (b e : Z) :
  0 <= b -> 0 <= e ->
  slice s b e = take (Z.to_nat (Z.min e (Z.of_nat (length s)) - Z.min b (Z.of_nat (length s))))
                  (drop (Z.to_nat (Z.min b (Z.of_nat (length s)))) s).
Proof.
  intros Hb He. unfold slice, relative_index.
  destruct (b <? 0) eqn:E1; [lia|]. destruct (e <? 0) eqn:E2; [lia|]. reflexivity.
Qed.

(** Inside the array, [slice] is [take] after [drop]. *)
Lemma slice_take_drop s (b n : Z) :
  0 <= b -> 0 <= n ->
  slice s b (b + n) = take (Z.to_nat n) (drop (Z.to_nat b) s).
Proof.
  intros Hb Hn. rewrite slice_nonneg by lia.
  set (len := Z.of_nat (length s)).
  destruct (Z_le_gt_dec len b) as [Hge|Hlt].
  - rewrite !drop_ge by (subst len; lia). rewrite !take_nil. reflexivity.
  - replace (Z.min b len) with b by lia.
    destruct (Z_le_gt_dec (b + n) len) as [Hle|Hgt].
    + replace (Z.min (b + n) len) with (b + n) by lia. f_equal. lia.
    + replace (Z.min (b + n) len) with len by lia.
      rewrite !take_ge; [reflexivity | |]; rewrite length_drop; subst len; lia.
Qed.

Lemma slice_from_beyond s (b : Z) :
  Z.of_nat (length s) <= b -> slice_from s b = [].
Proof.
  intros Hb. unfold slice_from, slice, relative_index.
  destruct (b <? 0) eqn:E; [lia|].
  destruct (Z.of_nat (length s) <? 0) eqn:E'; [lia|].
  rewrite drop_ge by lia. apply take_nil.
Qed.

Lemma slice_from_drop s (b : Z) :
  0 <= b -> slice_from s b = drop (Z.to_nat b) s.
Proof.
  intros Hb.
  destruct (Z_le_gt_dec (Z.of_nat (length s)) b) as [Hge|Hlt].
  - rewrite (slice_from_beyond s b) by lia. rewrite drop_ge by lia. reflexivity.
  - unfold slice_from. replace (Z.of_nat (length s)) with (b + (Z.of_nat (length s) - b)) at 1 by lia.
    rewrite slice_take_drop by lia.
    apply take_ge. rewrite length_drop. lia.
Qed.

End StringsAndArrays.

(** ** truncate, clamp, getFileExtension *)

Section Truncate.

Implicit Types (text suffix : list ascii).

(** X1. [truncate] returns a string no longer than [length] as it is.  A
    longer one is cut to [length - suffix.length] characters (none when
    that is negative) and the suffix is appended: the result then has
    exactly [max length suffix.length] characters, so it is longer than
    [length] whenever the suffix alone is. *)
Theorem truncate_length text (length : Z) (suffix : option (list ascii)) :
  let sfx := default (str "...") suffix in
  (Z.of_nat (List.length text) <= length -> truncate text length suffix = text) /\
  (length < Z.of_nat (List.length text) ->
   truncate text length suffix =
     take (Z.to_nat (length - Z.of_nat (List.length sfx))) text ++ sfx /\
   Z.of_nat (List.length (truncate text length suffix)) =
     Z.max length (Z.of_nat (List.length sfx))).
Proof.
  intros sfx. unfold truncate. fold (str "..."). fold sfx. split.
  - intros Hle. destruct (_ <=? _) eqn:E; [reflexivity | lia].
  - intros Hlt. destruct (_ <=? _) eqn:E; [lia|].
    assert (substring text 0 (length - Z.of_nat (List.length sfx)) =
            take (Z.to_nat (length - Z.of_nat (List.length sfx))) text) as ->.
    { unfold substring.
      set (len := Z.of_nat (List.length text)).
      set (e := length - Z.of_nat (List.length sfx)).
      replace (Z.min (Z.max 0 0) len) with 0 by lia.
      replace (Z.min 0 (Z.min (Z.max e 0) len)) with 0 by lia.
      replace (Z.max 0 (Z.min (Z.max e 0) len) - 0) with (Z.max e 0) by lia.
      cbn [Z.to_nat drop]. f_equal. lia. }
    split; [reflexivity|].
    rewrite length_app, length_take. lia.
Qed.

End Truncate.

Lemma truncate_length_witness :
  truncate (str "Bodicise") 8 None = str "Bodicise" /\
  truncate (str "Morning workout") 10 None = str "Morning..." /\
  truncate (str "Morning workout") 2 None = str "...".
Proof.
  split; [|split].
  - apply (truncate_length (str "Bodicise") 8 None). cbn. lia.
  - destruct (truncate_length (str "Morning workout") 10 None) as [_ H].
    destruct H as [H _]; [cbn; lia|]. rewrite H. reflexivity.
  - destruct (truncate_length (str "Morning workout") 2 None) as [_ H].
    destruct H as [H _]; [cbn; lia|]. rewrite H. reflexivity.
Defined.

(** [clamp] never returns more than [max], also when the bounds are
    given out of order ([max] is then the result); with [min <= max] the
    result lies within the bounds, is the value itself when the value does,
    and clamping again changes nothing. *)
Theorem clamp_bounds (value min max : Z) :
  clamp value min max <= max /\
  (max < min -> clamp value min max = max) /\
  (min <= max ->
   min <= clamp value min max /\
   (min <= value <= max -> clamp value min max = value) /\
   clamp (clamp value min max) min max = clamp value min max).
Proof. unfold clamp. lia. Qed.

Lemma clamp_bounds_witness :
  clamp 150 0 100 = 100 /\ clamp 42 0 100 = 42 /\ clamp 5 10 1 = 1.
Proof.
  destruct (clamp_bounds 42 0 100) as (_ & _ & H42).
  destruct (H42 ltac:(lia)) as (_ & Hid & _).
  destruct (clamp_bounds 5 10 1) as (_ & Hswap & _).
  split; [reflexivity|]. split; [apply Hid; lia | apply Hswap; lia].
Defined.

Section FileExtension.

Implicit Types (filename a b : list ascii) (c : ascii).

Lemma lastIndexOf_from_absent c b :
  c ∉ b -> forall i found : Z, lastIndexOf_from c b i found = found.
Proof.
  induction b as [|x b IH]; intros Hc i found; [reflexivity|].
  cbn [lastIndexOf_from].
  destruct (Ascii.eqb_spec x c) as [->|Hne]; [exfalso; apply Hc; left|].
  apply IH. intros H. apply Hc. right. exact H.
Qed.

Lemma lastIndexOf_from_last c a b :
  c ∉ b ->
  forall i found : Z,
    lastIndexOf_from c (a ++ c :: b) i found = i + Z.of_nat (length a).
Proof.
  intros Hc. induction a as [|x a IH]; intros i found.
  - cbn [app lastIndexOf_from length]. rewrite Ascii.eqb_refl.
    rewrite lastIndexOf_from_absent by exact Hc. lia.
  - cbn [app lastIndexOf_from length]. rewrite IH. lia.
Qed.

(** X2. For a file name shorter than 2^32 characters, [getFileExtension]
    returns what follows the last dot; it returns the empty string when
    there is no dot and when the only dot is the first character (the
    unsigned shift turns the indices [-2] and [-1] into offsets beyond the
    end of the name). *)
Theorem getFileExtension_last_dot filename :
  Z.of_nat (length filename) < 2 ^ 32 ->
  ("."%char ∉ filename -> getFileExtension filename = []) /\
  (forall b, filename = "."%char :: b -> "."%char ∉ b -> getFileExtension filename = []) /\
  (forall a b,
      filename = a ++ "."%char :: b -> a <> [] -> "."%char ∉ b ->
      getFileExtension filename = b).
Proof.
  intros Hlen. unfold getFileExtension, lastIndexOf, to_uint32.
  split; [|split].
  - intros Hno. rewrite lastIndexOf_from_absent by exact Hno.
    apply slice_from_beyond. change ((-1 - 1) mod 2 ^ 32) with (2 ^ 32 - 2). lia.
  - intros b -> Hb. rewrite (lastIndexOf_from_last "."%char [] b Hb).
    apply slice_from_beyond. cbn [length] in *.
    change ((0 + Z.of_nat 0 - 1) mod 2 ^ 32) with (2 ^ 32 - 1). lia.
  - intros a b -> Ha Hb. rewrite (lastIndexOf_from_last "."%char a b Hb).
    rewrite length_app in Hlen. cbn [length] in Hlen.
    assert (0 < Z.of_nat (length a)) by (destruct a; [contradiction | cbn; lia]).
    rewrite Z.mod_small by lia.
    rewrite slice_from_drop by lia.
    replace (Z.to_nat (0 + Z.of_nat (length a) - 1 + 2)) with (length a + 1)%nat by lia.
    rewrite <- drop_drop, drop_app_length. reflexivity.
Qed.

End FileExtension.

Lemma getFileExtension_last_dot_witness :
  getFileExtension (str "README") = [] /\
  getFileExtension (str ".gitignore") = [] /\
  getFileExtension (str "plan.v2.pdf") = str "pdf".
Proof.
  split; [|split].
  - apply (getFileExtension_last_dot (str "README")); [cbn; lia|].
    intros H. repeat (apply elem_of_cons in H as [H|H]; [discriminate H|]).
    by apply elem_of_nil in H.
  - destruct (getFileExtension_last_dot (str ".gitignore")) as (_ & H & _); [cbn; lia|].
    apply (H (str "gitignore")); [reflexivity|].
    intros E. repeat (apply elem_of_cons in E as [E|E]; [discriminate E|]).
    by apply elem_of_nil in E.
  - destruct (getFileExtension_last_dot (str "plan.v2.pdf")) as (_ & _ & H); [cbn; lia|].
    apply (H (str "plan.v2") (str "pdf")); [reflexivity | discriminate |].
    intros E. repeat (apply elem_of_cons in E as [E|E]; [discriminate E|]).
    by apply elem_of_nil in E.
Defined.

(** ** chunk *)

Section Chunk.

Context {A : Type}.
Implicit Types (array l : list A) (chunks : list (list A)) (sz n fuel : nat).

Lemma pieces_fuel sz : (1 <= sz)%nat ->
  forall n m l, (length l <= n)%nat -> (length l <= m)%nat -> pieces n sz l = pieces m sz l.
Proof.
  intros Hsz n. induction n as [|n IH]; intros m l Hn Hm.
  - destruct l; [destruct m; reflexivity | cbn in Hn; lia].
  - destruct l as [|x l]; [destruct m; reflexivity|].
    destruct m as [|m]; [cbn in Hm; lia|].
    cbn [pieces]. f_equal. cbn [length] in Hn, Hm.
    apply IH; rewrite length_drop; cbn [length]; lia.
Qed.

Lemma pieces_enough sz : (1 <= sz)%nat ->
  forall n l, (length l <= n)%nat -> pieces n sz l = pieces (length l) sz l.
Proof. intros Hsz n l Hn. apply pieces_fuel; [exact Hsz | exact Hn | reflexivity]. Qed.

Lemma pieces_concat sz : (1 <= sz)%nat ->
  forall n l, (length l <= n)%nat -> concat (pieces n sz l) = l.
Proof.
  intros Hsz n. induction n as [|n IH]; intros l Hn.
  - destruct l; [reflexivity | cbn in Hn; lia].
  - destruct l as [|x l]; [reflexivity|].
    cbn [pieces concat]. rewrite IH; [apply take_drop|].
    rewrite length_drop. cbn [length] in *. lia.
Qed.

Lemma pieces_lengths sz : (1 <= sz)%nat ->
  forall n l, Forall (fun c => (1 <= length c <= sz)%nat) (pieces n sz l).
Proof.
  intros Hsz n. induction n as [|n IH]; intros l; [constructor|].
  destruct l as [|x l]; [constructor|].
  cbn [pieces]. constructor; [|apply IH].
  rewrite length_take. cbn [length]. lia.
Qed.

Lemma pieces_full sz : (1 <= sz)%nat ->
  forall n l (j : nat) (c : list A),
    pieces n sz l !! j = Some c ->
    (S j < length (pieces n sz l))%nat ->
    length c = sz.
Proof.
  intros Hsz n. induction n as [|n IH]; intros l j c Hj Hlast; [discriminate Hj|].
  destruct l as [|x l]; [discriminate Hj|].
  cbn [pieces] in *. destruct j as [|j].
  - cbn in Hj. injection Hj as <-. cbn [length] in Hlast.
    rewrite length_take.
    destruct n as [|n]; [cbn in Hlast; lia|].
    destruct (drop sz (x :: l)) as [|y r] eqn:E; [cbn in Hlast; lia|].
    assert (length (drop sz (x :: l)) = S (length r)) as Hd by (rewrite E; reflexivity).
    rewrite length_drop in Hd. lia.
  - cbn in Hj. cbn [length] in Hlast. apply (IH _ j c Hj). lia.
Qed.

Lemma chunk_loop_pieces sz : (1 <= sz)%nat ->
  forall fuel array (i : Z) chunks,
    0 <= i ->
    (length (drop (Z.to_nat i) array) <= fuel)%nat ->
    chunk_loop fuel array (Z.of_nat sz) i chunks =
      Some (chunks ++ pieces fuel sz (drop (Z.to_nat i) array)).
Proof.
  intros Hsz fuel. induction fuel as [|fuel IH]; intros array i chunks Hi Hfuel.
  - cbn [chunk_loop pieces]. rewrite length_drop in Hfuel.
    destruct (i <? Z.of_nat (length array)) eqn:E; [lia|].
    rewrite app_nil_r. reflexivity.
  - cbn [chunk_loop]. destruct (i <? Z.of_nat (length array)) eqn:E.
    + rewrite slice_take_drop by lia. rewrite Nat2Z.id.
      rewrite IH; [| lia |].
      * replace (Z.to_nat (i + Z.of_nat sz)) with (Z.to_nat i + sz)%nat by lia.
        rewrite <- drop_drop, <- app_assoc. cbn [app].
        destruct (drop (Z.to_nat i) array) as [|x r] eqn:Ed.
        { assert (length (drop (Z.to_nat i) array) = 0%nat) as H0 by (rewrite Ed; reflexivity).
          rewrite length_drop in H0. lia. }
        reflexivity.
      * rewrite !length_drop in *. lia.
    + rewrite drop_ge by lia. cbn [pieces]. rewrite app_nil_r. reflexivity.
Qed.

Lemma chunk_loop_stuck (size : Z) array : size <= 0 -> array <> [] ->
  forall fuel (i : Z) chunks, i <= 0 -> chunk_loop fuel array size i chunks = None.
Proof.
  intros Hsize Hne.
  assert (0 < Z.of_nat (length array)) as Hlen
    by (destruct array; [contradiction | cbn [length]; lia]).
  intros fuel. induction fuel as [|fuel IH]; intros i chunks Hi; cbn [chunk_loop].
  - destruct (i <? Z.of_nat (length array)) eqn:E; [reflexivity | lia].
  - destruct (i <? Z.of_nat (length array)) eqn:E; [|lia].
    apply IH. lia.
Qed.

(** X3. With [size >= 1], [chunk] ends (as many turns as the array has
    elements are enough) and returns consecutive chunks whose concatenation
    is the array: each holds from 1 to [size] elements, and each but the
    last exactly [size].  With [size <= 0] and a non-empty array the loop
    never ends: its index never reaches the length. *)
Theorem chunk_partition array (size : Z) :
  (1 <= size ->
   exists chunks,
     (forall fuel, (length array <= fuel)%nat -> chunk fuel array size = Some chunks) /\
     concat chunks = array /\
     Forall (fun c => 1 <= Z.of_nat (length c) <= size) chunks /\
     (forall (j : nat) (c : list A),
         chunks !! j = Some c -> (S j < length chunks)%nat -> Z.of_nat (length c) = size)) /\
  (size <= 0 -> array <> [] -> forall fuel, chunk fuel array size = None).
Proof.
  split.
  - intros Hsize.
    assert (1 <= Z.to_nat size)%nat as Hsz by lia.
    exists (pieces (length array) (Z.to_nat size) array).
    split; [|split; [|split]].
    + intros fuel Hfuel. unfold chunk.
      replace size with (Z.of_nat (Z.to_nat size)) at 1 by lia.
      rewrite (chunk_loop_pieces _ Hsz fuel array 0 []); [| lia | rewrite length_drop; lia].
      change (Z.to_nat 0) with 0%nat. rewrite drop_0. cbn [app]. f_equal.
      apply pieces_enough; assumption.
    + apply pieces_concat; [exact Hsz | reflexivity].
    + eapply Forall_impl; [apply (pieces_lengths _ Hsz)|].
      cbn. intros c Hc. lia.
    + intros j c Hj Hlast. rewrite (pieces_full _ Hsz _ _ j c Hj Hlast). lia.
  - intros Hsize Hne fuel. apply chunk_loop_stuck; [exact Hsize | exact Hne | lia].
Qed.

End Chunk.

Lemma chunk_partition_witness :
  chunk 5 [1; 2; 3; 4; 5] 2 = Some [[1; 2]; [3; 4]; [5]] /\
  chunk 1000 [1; 2; 3; 4; 5] 0 = None.
Proof.
  destruct (chunk_partition [1; 2; 3; 4; 5] 2) as [Hpos _].
  destruct (chunk_partition [1; 2; 3; 4; 5] 0) as [_ Hzero].
  split.
  - destruct (Hpos ltac:(lia)) as (chunks & Hrun & _).
    rewrite (Hrun 5%nat) by (cbn; lia).
    specialize (Hrun 5%nat ltac:(cbn; lia)). cbn in Hrun. exact (eq_sym Hrun).
  - apply Hzero; [lia | discriminate].
Defined.

(** ** unique and findDuplicates *)

Section Sets.

Context {A : Type} `{EqDecision A}.
Implicit Types (x y : A) (l set array : list A).

Lemma elem_of_set_add set x y : y ∈ set_add set x <-> y ∈ set \/ y = x.
Proof.
  unfold set_add. destruct (decide (x ∈ set)) as [Hin|Hout].
  - split; [auto | intros [H| ->]; assumption].
  - rewrite elem_of_app, list_elem_of_singleton. reflexivity.
Qed.

Lemma NoDup_set_add set x : NoDup set -> NoDup (set_add set x).
Proof.
  intros Hnd. unfold set_add. destruct (decide (x ∈ set)) as [Hin|Hout]; [exact Hnd|].
  apply NoDup_app. split; [exact Hnd|]. split; [|apply NoDup_singleton].
  intros y Hy Hy'. apply list_elem_of_singleton in Hy'. subst y. contradiction.
Qed.

Lemma set_add_nil x : set_add [] x = [x].
Proof.
  unfold set_add. destruct (decide (x ∈ [])) as [Hin|_]; [|reflexivity].
  exfalso. exact (not_elem_of_nil x Hin).
Qed.

(** The fold from a set [set] keeps [set] and appends the new elements in
    the order of their first occurrence. *)
Lemma fold_set_add l : forall set,
  fold_left set_add l set = set ++ filter (fun y => y ∉ set) (unique l).
Proof.
  unfold unique.
  induction l as [|x l IH]; intros set; [cbn; rewrite app_nil_r; reflexivity|].
  cbn [fold_left]. rewrite set_add_nil, (IH (set_add set x)), (IH [x]).
  cbn [app]. rewrite filter_cons.
  unfold set_add. destruct (decide (x ∈ set)) as [Hin|Hout].
  - destruct (decide (x ∉ set)) as [Hout|_]; [contradiction|].
    rewrite list_filter_filter. f_equal. apply list_filter_iff.
    intros y. split; [|tauto]. intros Hy. split; [exact Hy|].
    intros Hy'. apply list_elem_of_singleton in Hy'. subst y. contradiction.
  - destruct (decide (x ∉ set)) as [_|Hin]; [|contradiction].
    rewrite <- app_assoc. cbn [app]. f_equal. f_equal.
    rewrite list_filter_filter. apply list_filter_iff.
    intros y. rewrite not_elem_of_app. tauto.
Qed.

Lemma unique_cons x l : unique (x :: l) = x :: filter (fun y => y <> x) (unique l).
Proof.
  unfold unique at 1. cbn [fold_left]. rewrite set_add_nil, fold_set_add.
  cbn [app]. f_equal. apply list_filter_iff.
  intros y. rewrite list_elem_of_singleton. tauto.
Qed.

Lemma elem_of_unique l x : x ∈ unique l <-> x ∈ l.
Proof.
  induction l as [|y l IH]; [reflexivity|].
  rewrite unique_cons, !elem_of_cons, list_elem_of_filter, IH.
  destruct (decide (x = y)); tauto.
Qed.

Lemma NoDup_unique l : NoDup (unique l).
Proof.
  induction l as [|y l IH]; [constructor|].
  rewrite unique_cons. constructor.
  - rewrite list_elem_of_filter. tauto.
  - apply NoDup_filter. exact IH.
Qed.

Lemma filter_ne_absent x l : x ∉ l -> filter (fun y => y <> x) l = l.
Proof.
  induction l as [|z l IH]; intros Hx; [reflexivity|].
  apply not_elem_of_cons in Hx as [Hne Hx].
  rewrite filter_cons_True by congruence. f_equal. apply IH. exact Hx.
Qed.

Lemma unique_NoDup l : NoDup l -> unique l = l.
Proof.
  induction l as [|y l IH]; intros Hnd; [reflexivity|].
  apply NoDup_cons in Hnd as [Hy Hnd].
  rewrite unique_cons, (IH Hnd). f_equal.
  apply filter_ne_absent. exact Hy.
Qed.

(** X4. [unique] keeps exactly the elements of the array, each once, in
    the order of their first occurrences: the head comes first, followed by
    the result for the tail without the head.  An array without repetition
    is returned as it is, so [unique] is idempotent. *)
Theorem unique_first_occurrences array :
  NoDup (unique array) /\
  (forall x, x ∈ unique array <-> x ∈ array) /\
  (forall x l, array = x :: l -> unique array = x :: filter (fun y => y <> x) (unique l)) /\
  (NoDup array -> unique array = array) /\
  unique (unique array) = unique array.
Proof.
  split; [apply NoDup_unique|].
  split; [intros x; apply elem_of_unique|].
  split; [intros x l ->; apply unique_cons|].
  split; [apply unique_NoDup|].
  apply unique_NoDup, NoDup_unique.
Qed.

End Sets.

Lemma unique_first_occurrences_witness :
  unique [3; 1; 3; 2; 1] = [3; 1; 2] /\ unique [4; 5; 6] = [4; 5; 6].
Proof.
  split; [reflexivity|].
  apply (unique_first_occurrences [4; 5; 6]).
  apply (bool_decide_unpack _). reflexivity.
Defined.

Section Duplicates.

Context {A : Type} `{EqDecision A}.
Implicit Types (x y : A) (l set array : list A).

Lemma occurrences_cons x y l :
  occurrences x (y :: l) = ((if decide (y = x) then 1 else 0) + occurrences x l)%nat.
Proof.
  unfold occurrences. rewrite filter_cons.
  destruct (decide (y = x)); reflexivity.
Qed.

Lemma occurrences_snoc x y l :
  occurrences x (l ++ [y]) = (occurrences x l + (if decide (y = x) then 1 else 0))%nat.
Proof.
  unfold occurrences. rewrite filter_app, length_app, filter_cons, filter_nil.
  destruct (decide (y = x)); reflexivity.
Qed.

Lemma elem_of_occurrences x l : x ∈ l <-> (1 <= occurrences x l)%nat.
Proof.
  induction l as [|y l IH]; [cbn; split; [intros H'; by apply elem_of_nil in H' | lia]|].
  rewrite elem_of_cons, occurrences_cons, IH.
  destruct (decide (y = x)) as [->|Hne]; [split; [lia | auto]|].
  split; [intros [->|H']; [contradiction | lia] | intros H'; right; lia].
Qed.

Lemma NoDup_occurrences l : NoDup l <-> forall x, (occurrences x l <= 1)%nat.
Proof.
  induction l as [|y l IH]; [split; [intros _ x; cbn; lia | constructor]|].
  rewrite NoDup_cons, IH. split.
  - intros [Hy Hl] x. rewrite occurrences_cons.
    destruct (decide (y = x)) as [->|Hne]; [|apply Hl].
    rewrite elem_of_occurrences in Hy. lia.
  - intros Hall. split.
    + rewrite elem_of_occurrences. specialize (Hall y).
      rewrite occurrences_cons, decide_True in Hall by reflexivity. lia.
    + intros x. specialize (Hall x). rewrite occurrences_cons in Hall. lia.
Qed.

(** What the two sets hold after the array has been traversed. *)
Lemma findDuplicates_sets array :
  let state := fold_left findDuplicates_step array ([], []) in
  (forall x, x ∈ state.1 <-> x ∈ array) /\
  NoDup state.2 /\
  (forall x, x ∈ state.2 <-> (2 <= occurrences x array)%nat).
Proof.
  induction array as [|y l IH] using rev_ind.
  - cbn. split; [reflexivity|]. split; [constructor|].
    intros x. split; [intros H'; by apply elem_of_nil in H' | lia].
  - cbv zeta in *. rewrite fold_left_app. cbn [fold_left].
    destruct (fold_left findDuplicates_step l ([], [])) as [seen duplicates].
    cbn [fst snd] in IH. destruct IH as (Hseen & Hnd & Hdup).
    unfold findDuplicates_step.
    destruct (decide (y ∈ seen)) as [Hin|Hout]; cbn [fst snd].
    + split; [|split].
      * intros x. rewrite elem_of_app, list_elem_of_singleton, Hseen.
        split; [auto | intros [H'| ->]; [exact H' | apply Hseen; exact Hin]].
      * apply NoDup_set_add. exact Hnd.
      * intros x. rewrite elem_of_set_add, Hdup, occurrences_snoc.
        apply Hseen, elem_of_occurrences in Hin.
        destruct (decide (y = x)) as [->|Hne]; [split; [lia | auto]|].
        split; [intros [H'| ->]; [lia | contradiction] | intros H'; left; lia].
    + split; [|split].
      * intros x. rewrite elem_of_set_add, elem_of_app, list_elem_of_singleton, Hseen.
        reflexivity.
      * exact Hnd.
      * intros x. rewrite Hdup, occurrences_snoc.
        destruct (decide (y = x)) as [->|Hne]; [|split; lia].
        assert (occurrences x l = 0)%nat as ->; [|split; lia].
        rewrite Hseen, elem_of_occurrences in Hout. lia.
Qed.

(** X5. [findDuplicates] returns, each once, exactly the elements that
    occur at least twice in the array; it returns the empty array exactly
    when the array has no repetition. *)
Theorem findDuplicates_twice array :
  NoDup (findDuplicates array) /\
  (forall x, x ∈ findDuplicates array <-> (2 <= occurrences x array)%nat) /\
  (findDuplicates array = [] <-> NoDup array).
Proof.
  destruct (findDuplicates_sets array) as (_ & Hnd & Hdup).
  fold (findDuplicates array) in Hnd, Hdup.
  split; [exact Hnd|]. split; [exact Hdup|].
  rewrite NoDup_occurrences. split.
  - intros Hnil x. destruct (le_lt_dec 2 (occurrences x array)) as [H2|H1]; [|lia].
    apply Hdup in H2. rewrite Hnil in H2. by apply elem_of_nil in H2.
  - intros Hall. destruct (findDuplicates array) as [|x r] eqn:E; [reflexivity|].
    assert (x ∈ x :: r) as Hx by (left).
    apply Hdup in Hx. specialize (Hall x). lia.
Qed.

End Duplicates.

Example findDuplicates_sample :
  findDuplicates [1; 2; 1; 3; 2; 1] = [1; 2] /\ findDuplicates [1; 2; 3] = [].
Proof. split; reflexivity. Qed.

(** ** shuffle *)

Section Shuffle.

Context {A : Type}.
Implicit Types (a array shuffled : list A) (rng : nat -> nat).

Lemma swap_Permutation a (i j : nat) : swap a i j ≡ₚ a.
Proof.
  unfold swap. destruct (a !! i) as [x|] eqn:Hi; [|reflexivity].
  destruct (a !! j) as [y|] eqn:Hj; [|reflexivity].
  apply Permutation_insert_swap; assumption.
Qed.

(** Within the array the exchange is the one of the source. *)
Lemma swap_lookup a (i j : nat) :
  (i < length a)%nat -> (j < length a)%nat ->
  swap a i j !! i = a !! j /\ swap a i j !! j = a !! i /\
  forall k : nat, k <> i -> k <> j -> swap a i j !! k = a !! k.
Proof.
  intros Hi Hj. unfold swap.
  destruct (lookup_lt_is_Some_2 a i Hi) as [x Hx].
  destruct (lookup_lt_is_Some_2 a j Hj) as [y Hy].
  rewrite Hx, Hy. split; [|split].
  - destruct (decide (i = j)) as [->|Hne].
    + rewrite list_lookup_insert_eq by (rewrite length_insert; exact Hj). congruence.
    + rewrite list_lookup_insert_ne by congruence.
      rewrite list_lookup_insert_eq by exact Hi. reflexivity.
  - rewrite list_lookup_insert_eq by (rewrite length_insert; exact Hj). reflexivity.
  - intros k Hki Hkj. rewrite !list_lookup_insert_ne by congruence. reflexivity.
Qed.

Lemma random_below_lt rng (call n : nat) : (0 < n)%nat -> (random_below rng call n < n)%nat.
Proof. intros Hn. unfold random_below. apply Nat.mod_upper_bound. lia. Qed.

Lemma shuffle_loop_Permutation rng (i : nat) :
  forall (call : nat) shuffled, shuffle_loop rng call shuffled i ≡ₚ shuffled.
Proof.
  induction i as [|i IH]; intros call shuffled; [reflexivity|].
  cbn [shuffle_loop]. rewrite IH. apply swap_Permutation.
Qed.

(** X6. Whatever the random source draws, [shuffle] returns a permutation
    of the array: the same elements with the same multiplicities, hence
    the same length; an array of at most one element is returned as it
    is. *)
Theorem shuffle_Permutation rng array :
  shuffle rng array ≡ₚ array /\
  length (shuffle rng array) = length array /\
  ((length array <= 1)%nat -> shuffle rng array = array).
Proof.
  split; [apply shuffle_loop_Permutation|].
  split; [apply Permutation_length, shuffle_loop_Permutation|].
  intros Hlen. unfold shuffle.
  replace (length array - 1)%nat with 0%nat by lia. reflexivity.
Qed.

End Shuffle.

Lemma shuffle_Permutation_witness :
  shuffle (fun call => call) [10; 20; 30; 40] = [30; 40; 20; 10] /\
  shuffle (fun call => call) [10; 20; 30; 40] ≡ₚ [10; 20; 30; 40] /\
  shuffle (fun call => 7%nat) [10] = [10].
Proof.
  split; [reflexivity|].
  split; [apply (shuffle_Permutation (fun call => call) [10; 20; 30; 40])|].
  apply (shuffle_Permutation (fun call => 7%nat) [10]). cbn. lia.
Defined.

(** ** Colours *)

Section Colours.

Lemma hex_value_hex_digit (k : Z) : 0 <= k < 16 -> hex_value (hex_digit k) = Some k.
Proof.
  intros Hk.
  assert (k = 0 \/ k = 1 \/ k = 2 \/ k = 3 \/ k = 4 \/ k = 5 \/ k = 6 \/ k = 7 \/
          k = 8 \/ k = 9 \/ k = 10 \/ k = 11 \/ k = 12 \/ k = 13 \/ k = 14 \/ k = 15)
    as Hcases by lia.
  repeat (destruct Hcases as [->|Hcases]; [reflexivity|]). subst k. reflexivity.
Qed.

Lemma hex_value_bounds (c : ascii) (v : Z) : hex_value c = Some v -> 0 <= v < 16.
Proof.
  unfold hex_value. intros H.
  repeat (match type of H with
          | (if ?b then _ else _) = _ => destruct b eqn:?
          end); inversion H; subst; lia.
Qed.

(** The component of [rgbToHex] for a byte: two digits. *)
Lemma toString16_byte (x : Z) :
  0 <= x <= 255 ->
  (if (length (toString16 x) =? 1)%nat then "0"%char :: toString16 x else toString16 x) =
    [hex_digit (x / 16); hex_digit (x mod 16)].
Proof.
  intros Hx. unfold toString16.
  destruct (x <? 0) eqn:E; [lia|]. cbn [to_hex_digits].
  destruct (x / 16 =? 0) eqn:E16.
  - cbn [length Nat.eqb]. replace (x / 16) with 0 by lia. reflexivity.
  - assert (16 <= x) as H16.
    { destruct (Z_lt_ge_dec x 16) as [Hlt|Hge]; [|lia].
      rewrite Z.div_small in E16 by lia. discriminate E16. }
    destruct (Z.to_nat x) as [|fuel] eqn:Ef; [lia|]. cbn [to_hex_digits].
    assert (x / 16 / 16 = 0) as -> by (apply Z.div_small; split;
      [apply Z.div_pos; lia | apply Z.div_lt_upper_bound; lia]).
    cbn [Z.eqb length Nat.eqb].
    rewrite (Z.mod_small (x / 16)) by (split;
      [apply Z.div_pos; lia | apply Z.div_lt_upper_bound; lia]).
    reflexivity.
Qed.

Lemma hexToRgb_rgbToHex_byte (r g b : Z) :
  0 <= r <= 255 -> 0 <= g <= 255 -> 0 <= b <= 255 ->
  hexToRgb (rgbToHex r g b) = Some (r, g, b) /\ length (rgbToHex r g b) = 7%nat.
Proof.
  intros Hr Hg Hb. unfold rgbToHex. cbn [map concat]. cbv beta zeta.
  rewrite (toString16_byte r Hr), (toString16_byte g Hg), (toString16_byte b Hb).
  cbn [app length]. split; [|reflexivity].
  unfold hexToRgb. change (Ascii.eqb "#" "#") with true. cbv iota.
  rewrite !hex_value_hex_digit by
    first [ apply Z.mod_pos_bound; lia
          | split; [apply Z.div_pos; lia | apply Z.div_lt_upper_bound; lia] ].
  pose proof (Z.div_mod r 16 ltac:(lia)). pose proof (Z.div_mod g 16 ltac:(lia)).
  pose proof (Z.div_mod b 16 ltac:(lia)).
  replace (16 * (r / 16) + r mod 16) with r by lia.
  replace (16 * (g / 16) + g mod 16) with g by lia.
  replace (16 * (b / 16) + b mod 16) with b by lia.
  reflexivity.
Qed.

(** X7. For components from 0 to 255, [rgbToHex] gives a [#] and six
    digits that [hexToRgb] reads back as the same components; and whatever
    [hexToRgb] accepts has components from 0 to 255. *)
Theorem rgbToHex_hexToRgb (r g b : Z) :
  (0 <= r <= 255 -> 0 <= g <= 255 -> 0 <= b <= 255 ->
   hexToRgb (rgbToHex r g b) = Some (r, g, b) /\ length (rgbToHex r g b) = 7%nat) /\
  (forall hex : list ascii,
      hexToRgb hex = Some (r, g, b) -> 0 <= r <= 255 /\ 0 <= g <= 255 /\ 0 <= b <= 255).
Proof.
  split; [apply hexToRgb_rgbToHex_byte|].
  intros hex H. unfold hexToRgb in H.
  match type of H with
  | match ?d with _ => _ end = _ =>
      destruct d as [|c1 [|c2 [|c3 [|c4 [|c5 [|c6 [|c7 rest]]]]]]]; try discriminate H
  end.
  destruct (hex_value c1) as [v1|] eqn:E1; [|discriminate H].
  destruct (hex_value c2) as [v2|] eqn:E2; [|discriminate H].
  destruct (hex_value c3) as [v3|] eqn:E3; [|discriminate H].
  destruct (hex_value c4) as [v4|] eqn:E4; [|discriminate H].
  destruct (hex_value c5) as [v5|] eqn:E5; [|discriminate H].
  destruct (hex_value c6) as [v6|] eqn:E6; [|discriminate H].
  apply hex_value_bounds in E1, E2, E3, E4, E5, E6.
  inversion H; subst. lia.
Qed.

(** X8. For the colour that [rgbToHex] writes for components from 0 to
    255, [getContrastColor] answers black exactly when the weighted sum
    [299 r + 587 g + 114 b] exceeds 128000, and white otherwise; a text
    that [hexToRgb] does not accept gets black. *)
Theorem getContrastColor_brightness (r g b : Z) :
  0 <= r <= 255 -> 0 <= g <= 255 -> 0 <= b <= 255 ->
  (128000 < 299 * r + 587 * g + 114 * b ->
   getContrastColor (rgbToHex r g b) = str "#000000") /\
  (299 * r + 587 * g + 114 * b <= 128000 ->
   getContrastColor (rgbToHex r g b) = str "#ffffff") /\
  (forall hex : list ascii, hexToRgb hex = None -> getContrastColor hex = str "#000000").
Proof.
  intros Hr Hg Hb. unfold getContrastColor.
  destruct (hexToRgb_rgbToHex_byte r g b Hr Hg Hb) as [-> _].
  split; [|split].
  - intros H. destruct (r * 299 + g * 587 + b * 114 >? 128 * 1000) eqn:E; [reflexivity | lia].
  - intros H. destruct (r * 299 + g * 587 + b * 114 >? 128 * 1000) eqn:E; [lia | reflexivity].
  - intros hex ->. reflexivity.
Qed.

End Colours.

Lemma rgbToHex_hexToRgb_witness :
  rgbToHex 255 136 0 = str "#ff8800" /\
  hexToRgb (rgbToHex 255 136 0) = Some (255, 136, 0) /\
  hexToRgb (str "FF8800") = Some (255, 136, 0) /\
  (0 <= 255 <= 255 /\ 0 <= 136 <= 255 /\ 0 <= 0 <= 255).
Proof.
  destruct (rgbToHex_hexToRgb 255 136 0) as [Hto Hfrom].
  split; [reflexivity|].
  split; [apply Hto; lia|].
  split; [reflexivity|].
  apply (Hfrom (str "FF8800")). reflexivity.
Defined.

Lemma getContrastColor_brightness_witness :
  getContrastColor (rgbToHex 255 255 255) = str "#000000" /\
  getContrastColor (rgbToHex 0 0 128) = str "#ffffff" /\
  getContrastColor (str "navy") = str "#000000".
Proof.
  destruct (getContrastColor_brightness 255 255 255) as (Hw & _ & Hn); [lia | lia | lia |].
  destruct (getContrastColor_brightness 0 0 128) as (_ & Hb & _); [lia | lia | lia |].
  split; [apply Hw; lia|]. split; [apply Hb; lia|].
  apply Hn. reflexivity.
Defined.

(** Out of that range the text is not a colour: [hexToRgb] rejects it. *)
Example rgbToHex_out_of_range :
  rgbToHex 256 0 0 = str "#1000000" /\ hexToRgb (rgbToHex 256 0 0) = None /\
  rgbToHex (-1) 0 0 = str "#-10000" /\ hexToRgb (rgbToHex (-1) 0 0) = None.
Proof. repeat split; reflexivity. Qed.

(** ** generateUUID *)

Section UUID.

Variable rng : nat -> nat.

Lemma variant_bits (r : Z) : 0 <= r < 16 -> 8 <= Z.lor (Z.land r 3) 8 <= 11.
Proof.
  intros Hr.
  assert (r = 0 \/ r = 1 \/ r = 2 \/ r = 3 \/ r = 4 \/ r = 5 \/ r = 6 \/ r = 7 \/
          r = 8 \/ r = 9 \/ r = 10 \/ r = 11 \/ r = 12 \/ r = 13 \/ r = 14 \/ r = 15)
    as Hcases by lia.
  repeat (destruct Hcases as [->|Hcases]; [split; apply Z.leb_le; reflexivity|]).
  subst r. split; apply Z.leb_le; reflexivity.
Qed.

Lemma uuid_replace_shape (template : list ascii) :
  forall call : nat, Forall2 uuid_char template (uuid_replace rng call template).
Proof.
  induction template as [|t template IH]; intros call; [constructor|].
  cbn [uuid_replace].
  assert (0 <= Z.of_nat (random_below rng call 16) < 16) as Hr.
  { pose proof (random_below_lt rng call 16 ltac:(lia)). lia. }
  unfold uuid_char at 1.
  destruct (Ascii.eqb t "x") eqn:Ex; cbn [orb].
  - constructor; [|apply IH]. rewrite Ex. eexists. split; [exact Hr | reflexivity].
  - destruct (Ascii.eqb t "y") eqn:Ey.
    + constructor; [|apply IH]. rewrite Ex, Ey.
      eexists. split; [apply variant_bits; exact Hr | reflexivity].
    + constructor; [|apply IH]. rewrite Ex, Ey. reflexivity.
Qed.

(** X9. Whatever the random source draws, [generateUUID] returns 36
    characters in the shape of its template: hyphens at positions 8, 13,
    18 and 23, the version digit [4] at position 14, one of [8 9 a b] at
    position 19, and a lower-case hexadecimal digit everywhere else. *)
Theorem generateUUID_shape :
  Forall2 uuid_char (str "xxxxxxxx-xxxx-4xxx-yxxx-xxxxxxxxxxxx") (generateUUID rng) /\
  length (generateUUID rng) = 36%nat /\
  generateUUID rng !! 8%nat = Some "-"%char /\
  generateUUID rng !! 13%nat = Some "-"%char /\
  generateUUID rng !! 14%nat = Some "4"%char /\
  generateUUID rng !! 18%nat = Some "-"%char /\
  generateUUID rng !! 23%nat = Some "-"%char /\
  (exists k : Z, 8 <= k <= 11 /\ generateUUID rng !! 19%nat = Some (hex_digit k)).
Proof.
  pose proof (uuid_replace_shape (str "xxxxxxxx-xxxx-4xxx-yxxx-xxxxxxxxxxxx") 0) as Hshape.
  fold (generateUUID rng) in Hshape.
  split; [exact Hshape|].
  split; [symmetry; apply (Forall2_length _ _ _ Hshape)|].
  repeat (split; [reflexivity|]).
  eexists. split; [|reflexivity].
  apply variant_bits. pose proof (random_below_lt rng 15 16 ltac:(lia)). lia.
Qed.

End UUID.

(** ** getRelativeTime *)

Section RelativeTime.

Lemma ago_singular (unit : string) : ago 1 unit = "1 " +:+ unit +:+ " ago".
Proof. reflexivity. Qed.

Lemma ago_plural (n : Z) (unit : string) :
  1 < n -> ago n unit = pretty n +:+ " " +:+ unit +:+ "s ago".
Proof. intros Hn. unfold ago. destruct (n >? 1) eqn:E; [reflexivity | lia]. Qed.

(** X10. [getRelativeTime] answers [just now] below one minute, also for
    a date in the future.  From one minute on it counts whole minutes
    (1 to 59), hours (1 to 23), days (1 to 29), months of 30 days (1 to 12)
    or years of 365 days (from 1): the count is never 0. *)
Theorem getRelativeTime_units (now date : Z) :
  let diff := (now - date) / 1000 in
  (diff < 60 -> getRelativeTime now date = "just now"%string) /\
  (60 <= diff ->
   exists (n : Z) (unit : string),
     getRelativeTime now date = ago n unit /\
     1 <= n /\
     ((unit = "minute"%string /\ n = diff / 60 /\ n <= 59) \/
      (unit = "hour"%string /\ n = diff / 3600 /\ n <= 23) \/
      (unit = "day"%string /\ n = diff / 86400 /\ n <= 29) \/
      (unit = "month"%string /\ n = diff / 2592000 /\ n <= 12) \/
      (unit = "year"%string /\ n = diff / 31536000))).
Proof.
  intros diff. unfold getRelativeTime. fold diff. split.
  - intros Hlt. destruct (diff <? 60) eqn:E; [reflexivity | lia].
  - intros Hge. destruct (diff <? 60) eqn:E60; [lia|].
    pose proof (Z.div_mod diff 60 ltac:(lia)).
    pose proof (Z.mod_pos_bound diff 60 ltac:(lia)).
    pose proof (Z.div_mod diff 3600 ltac:(lia)).
    pose proof (Z.mod_pos_bound diff 3600 ltac:(lia)).
    pose proof (Z.div_mod diff 86400 ltac:(lia)).
    pose proof (Z.mod_pos_bound diff 86400 ltac:(lia)).
    pose proof (Z.div_mod diff 2592000 ltac:(lia)).
    pose proof (Z.mod_pos_bound diff 2592000 ltac:(lia)).
    pose proof (Z.div_mod diff 31536000 ltac:(lia)).
    pose proof (Z.mod_pos_bound diff 31536000 ltac:(lia)).
    destruct (diff <? 3600) eqn:E1.
    { eexists _, _. split; [reflexivity|]. split; [lia|]. left. repeat split; lia. }
    destruct (diff <? 86400) eqn:E2.
    { eexists _, _. split; [reflexivity|]. split; [lia|]. right; left. repeat split; lia. }
    destruct (diff <? 2592000) eqn:E3.
    { eexists _, _. split; [reflexivity|]. split; [lia|].
      right; right; left. repeat split; lia. }
    destruct (diff <? 31536000) eqn:E4.
    { eexists _, _. split; [reflexivity|]. split; [lia|].
      right; right; right; left. repeat split; lia. }
    eexists _, _. split; [reflexivity|]. split; [lia|].
    right; right; right; right. split; reflexivity.
Qed.

End RelativeTime.

Lemma getRelativeTime_units_witness :
  getRelativeTime 1000000 5000000 = "just now"%string /\
  getRelativeTime 5000000 4910000 = "1 minute ago"%string /\
  getRelativeTime 31190400000 0 = "12 months ago"%string /\
  (exists (n : Z) (unit : string), getRelativeTime 5000000 4910000 = ago n unit /\ 1 <= n).
Proof.
  split; [apply (getRelativeTime_units 1000000 5000000); apply Z.ltb_lt; reflexivity|].
  split; [reflexivity|]. split; [reflexivity|].
  destruct (getRelativeTime_units 5000000 4910000) as [_ H].
  destruct (H ltac:(apply Z.leb_le; reflexivity)) as (n & unit & Hrun & Hn & _).
  exists n, unit. split; [exact Hrun | exact Hn].
Defined.

(** ** The Luhn check detects a wrong digit *)

Section LuhnErrors.

Implicit Types (digits a b : list ascii) (c : ascii) (e : bool) (before after : string).

(** The loop is the fold of [luhn_step] over the digits read from the
    right. *)
Lemma luhn_loop_fold digits (n : nat) :
  (n <= length digits)%nat ->
  forall (sum : option Z) e,
    luhn_loop digits n sum e = (fold_left luhn_step (rev (take n digits)) (sum, e)).1.
Proof.
  induction n as [|i IH]; intros Hn sum e; [reflexivity|].
  destruct (lookup_lt_is_Some_2 digits i ltac:(lia)) as [c Hc].
  cbn [luhn_loop]. rewrite (take_S_r _ _ _ Hc), rev_app_distr. cbn [rev app fold_left].
  rewrite IH by lia. rewrite Hc. reflexivity.
Qed.

Lemma parseInt_digit c : is_digit c = true -> exists v, parseInt (Some c) = Some v /\ 0 <= v <= 9.
Proof.
  intros Hc. unfold parseInt. rewrite Hc. eexists. split; [reflexivity|].
  unfold is_digit in Hc. apply andb_true_iff in Hc as [H1 H2].
  apply Nat.leb_le in H1, H2. lia.
Qed.

Lemma parseInt_inj c c' (v : Z) :
  parseInt (Some c) = Some v -> parseInt (Some c') = Some v -> c = c'.
Proof.
  unfold parseInt. destruct (is_digit c); [|discriminate].
  destruct (is_digit c'); [|discriminate].
  intros H1 H2. inversion H1. inversion H2.
  rewrite <- (ascii_nat_embedding c), <- (ascii_nat_embedding c'). f_equal. lia.
Qed.

(** Over digits the fold adds to the sum an amount that depends on the
    digits and the starting flag alone; the flag has then been toggled once
    per digit. *)
Lemma fold_luhn_step_digits digits :
  Forall (fun c => is_digit c = true) digits ->
  forall e, exists t : Z,
    forall s : Z,
      fold_left luhn_step digits (Some s, e) =
        (Some (s + t), xorb e (Nat.odd (length digits))).
Proof.
  induction 1 as [|c digits Hc _ IH]; intros e.
  - exists 0. intros s. cbn. rewrite Z.add_0_r, xorb_false_r. reflexivity.
  - destruct (parseInt_digit c Hc) as (v & Hv & _).
    destruct (IH (negb e)) as (t & Hfold).
    exists (luhn_digit e v + t). intros s.
    cbn [fold_left]. unfold luhn_step at 2. cbn [fst snd]. rewrite Hv.
    cbn [fmap option_fmap option_map]. rewrite Hfold. f_equal; [f_equal; lia|].
    cbn [length]. rewrite Nat.odd_succ, <- Nat.negb_odd.
    destruct e, (Nat.odd (length digits)); reflexivity.
Qed.

Lemma luhn_digit_inj e (v v' : Z) :
  0 <= v <= 9 -> 0 <= v' <= 9 ->
  0 <= luhn_digit e v <= 9 /\ (luhn_digit e v = luhn_digit e v' -> v = v').
Proof.
  intros Hv Hv'. unfold luhn_digit. destruct e; [|lia].
  destruct (v * 2 >? 9) eqn:E; destruct (v' * 2 >? 9) eqn:E'; lia.
Qed.

Lemma strip_non_digits_app before after :
  strip_non_digits (before +:+ after) = strip_non_digits before ++ strip_non_digits after.
Proof.
  induction before as [|c before IH]; [reflexivity|].
  change (String c before +:+ after) with (String c (before +:+ after)).
  cbn [strip_non_digits]. rewrite IH.
  destruct (is_digit c); reflexivity.
Qed.

(** The sum computed for the digits [a ++ c :: b]: the digit [c] is
    doubled when an odd number of digits follow it. *)
Lemma luhn_sum_split a b :
  Forall (fun c => is_digit c = true) a ->
  Forall (fun c => is_digit c = true) b ->
  exists t : Z,
    forall c (v : Z),
      parseInt (Some c) = Some v ->
      luhn_loop (a ++ c :: b) (length (a ++ c :: b)) (Some 0) false =
        Some (t + luhn_digit (Nat.odd (length b)) v).
Proof.
  intros Ha Hb.
  destruct (fold_luhn_step_digits (rev b) ltac:(apply Forall_rev; exact Hb) false)
    as (tb & Hfb).
  rewrite length_rev in Hfb. cbn [xorb] in Hfb.
  destruct (fold_luhn_step_digits (rev a) ltac:(apply Forall_rev; exact Ha)
              (negb (Nat.odd (length b)))) as (ta & Hfa).
  exists (tb + ta). intros c v Hv.
  rewrite luhn_loop_fold by reflexivity.
  rewrite firstn_all, rev_app_distr. cbn [rev]. rewrite <- app_assoc. cbn [app].
  rewrite fold_left_app, Hfb. cbn [fold_left]. unfold luhn_step at 2. cbn [fst snd].
  rewrite Hv. cbn [fmap option_fmap option_map]. rewrite Hfa. cbn [fst]. f_equal. lia.
Qed.

(** X11. Replacing one digit of a card number that passes the check by a
    different digit gives a number that fails it, wherever the digit stands
    and whatever other characters (spaces, hyphens) the text holds. *)
Theorem isValidCreditCard_single_digit_error before after c c' :
  is_digit c = true -> is_digit c' = true -> c <> c' ->
  isValidCreditCard (before +:+ String c after) = true ->
  isValidCreditCard (before +:+ String c' after) = false.
Proof.
  intros Hc Hc' Hne. unfold isValidCreditCard.
  rewrite !strip_non_digits_app. cbn [strip_non_digits]. rewrite Hc, Hc'.
  destruct (luhn_sum_split (strip_non_digits before) (strip_non_digits after)
              (strip_non_digits_digits before) (strip_non_digits_digits after)) as (t & Hsum).
  set (e := Nat.odd (length (strip_non_digits after))) in Hsum.
  destruct (parseInt_digit c Hc) as (v & Hv & Hvb).
  destruct (parseInt_digit c' Hc') as (v' & Hv' & Hvb').
  rewrite (Hsum c v Hv), (Hsum c' v' Hv').
  intros Hvalid. apply Z.eqb_eq in Hvalid. apply Z.eqb_neq. intros Hvalid'.
  destruct (luhn_digit_inj e v v' Hvb Hvb') as [Hr Hinj].
  destruct (luhn_digit_inj e v' v Hvb' Hvb) as [Hr' _].
  assert (luhn_digit e v = luhn_digit e v') as Heq.
  { pose proof (Z.div_mod (t + luhn_digit e v) 10 ltac:(lia)).
    pose proof (Z.div_mod (t + luhn_digit e v') 10 ltac:(lia)). lia. }
  apply Hinj in Heq. subst v'. apply Hne. exact (parseInt_inj c c' v Hv Hv').
Qed.

(** X12. Every text can be completed by exactly one check digit: among the
    ten digits, one and only one makes the text followed by it pass the
    check. *)
Theorem isValidCreditCard_check_digit before :
  exists c, is_digit c = true /\
    isValidCreditCard (before +:+ String c EmptyString) = true /\
    forall c', is_digit c' = true ->
      isValidCreditCard (before +:+ String c' EmptyString) = true -> c' = c.
Proof.
  destruct (luhn_sum_split (strip_non_digits before) [] (strip_non_digits_digits before)
              ltac:(constructor)) as (t & Hsum).
  cbn [length Nat.odd Nat.even negb] in Hsum.
  set (v := (- t) mod 10).
  assert (0 <= v <= 9) as Hv by (pose proof (Z.mod_pos_bound (- t) 10 ltac:(lia)); lia).
  set (c := ascii_of_nat (Z.to_nat (48 + v))).
  assert (nat_of_ascii c = Z.to_nat (48 + v)) as Hn
    by (apply nat_ascii_embedding; lia).
  assert (is_digit c = true) as Hc.
  { unfold is_digit. rewrite Hn. apply andb_true_iff. split; apply Nat.leb_le; lia. }
  assert (parseInt (Some c) = Some v) as Hpv.
  { unfold parseInt. rewrite Hc, Hn. f_equal. lia. }
  assert (forall c' v', parseInt (Some c') = Some v' ->
            isValidCreditCard (before +:+ String c' EmptyString) = (((t + v') mod 10) =? 0)) as Hval.
  { intros c' v' Hv'. unfold isValidCreditCard.
    assert (is_digit c' = true) as Hd
      by (unfold parseInt in Hv'; destruct (is_digit c'); [reflexivity | discriminate]).
    rewrite strip_non_digits_app. cbn [strip_non_digits]. rewrite Hd.
    rewrite (Hsum c' v' Hv'). reflexivity. }
  exists c. split; [exact Hc|]. split.
  - rewrite (Hval c v Hpv). apply Z.eqb_eq. subst v.
    rewrite Zplus_mod_idemp_r. replace (t + - t) with 0 by lia. reflexivity.
  - intros c' Hc' Hvalid'.
    destruct (parseInt_digit c' Hc') as (v' & Hv' & Hvb').
    rewrite (Hval c' v' Hv') in Hvalid'. apply Z.eqb_eq in Hvalid'.
    assert (v' = v) as ->.
    { subst v. pose proof (Z.div_mod (t + v') 10 ltac:(lia)).
      pose proof (Z.div_mod (- t) 10 ltac:(lia)). lia. }
    exact (parseInt_inj c' c v Hv' Hpv).
Qed.

End LuhnErrors.

Lemma isValidCreditCard_single_digit_error_witness :
  isValidCreditCard "4532 0151-1283 0366" = true /\
  isValidCreditCard "4532 0151-1283 0966" = false.
Proof.
  split; [reflexivity|].
  apply (isValidCreditCard_single_digit_error "4532 0151-1283 0" "66" "3" "9");
    [reflexivity | reflexivity | discriminate | reflexivity].
Defined.

Lemma isValidCreditCard_check_digit_witness :
  exists c, is_digit c = true /\ isValidCreditCard ("453201511283036" +:+ String c EmptyString) = true.
Proof.
  destruct (isValidCreditCard_check_digit "453201511283036") as (c & Hc & Hvalid & _).
  exists c. split; [exact Hc | exact Hvalid].
Defined.

(** ** Storage utilities *)

Section StorageFacts.

Variable JSON_stringify : value -> completion string.
Variable JSON_parse : string -> completion value.
Variable setItem_throws : string -> string -> bool.
Variable ToNumber : value -> option Z.

#[local] Abbreviation setStorage' := (setStorage JSON_stringify setItem_throws).
#[local] Abbreviation getStorage' := (getStorage JSON_parse ToNumber).

Implicit Types (key text : string) (v : value) (ls : gmap string string)
  (expiration : option Z).

(** X13. When the record can be serialised, stored and parsed back,
    [getStorage] after [setStorage] returns the value as long as the entry
    has not expired.  The entry never expires when the expiration is
    omitted or zero, and when the expiry instant [now' + e] is itself 0
    (it is stored as a falsy [expiration]).  Otherwise the value is
    returned up to and including the instant [now' + e]; a later read
    returns [null] and removes the entry, so every read after it returns
    [null].  Other keys are left as they were. *)
Theorem setStorage_getStorage key v expiration (now now' : Z) ls text :
  JSON_stringify (storage_data v expiration now now') = Normal text ->
  text <> ""%string ->
  setItem_throws key text = false ->
  JSON_parse text = Normal (storage_data v expiration now now') ->
  let ls1 := setStorage' key v expiration now now' ls in
  (expiration = None \/ expiration = Some 0 \/ expiration = Some (- now') ->
   forall t : Z, getStorage' key t ls1 = (v, ls1)) /\
  (forall e : Z,
      expiration = Some e -> e <> 0 -> e <> - now' ->
      forall t : Z,
        (t <= now' + e -> getStorage' key t ls1 = (v, ls1)) /\
        (now' + e < t ->
         getStorage' key t ls1 = (VNull, delete key ls1) /\
         forall t' : Z, getStorage' key t' (delete key ls1) = (VNull, delete key ls1))) /\
  (forall k : string, k <> key -> ls1 !! k = ls !! k).
Proof.
  intros Hser Htext Hset Hparse ls1.
  assert (ls1 = <[key := text]> ls) as Hls1
    by (subst ls1; unfold setStorage; rewrite Hser, Hset; reflexivity).
  assert (truthy (VStr text) = true) as Htruthy.
  { cbn. destruct (String.eqb_spec text ""); [contradiction | reflexivity]. }
  assert (forall t, getStorage' key t ls1 =
            let expiration' := default VUndefined
                                 (({[ "value"%string := v;
                                      "timestamp"%string := VNum now;
                                      "expiration"%string :=
                                        match expiration with
                                        | Some e => if truthy (VNum e) then VNum (now' + e)
                                                    else VNull
                                        | None => VNull
                                        end ]} : gmap string value) !! "expiration"%string) in
            if truthy expiration' && now_after ToNumber t expiration'
            then (VNull, delete key ls1) else (v, ls1)) as Hget.
  { intros t. unfold getStorage. rewrite Hls1, lookup_insert_eq, Htruthy, Hparse.
    cbn [negb]. unfold storage_data. cbn [get_prop]. reflexivity. }
  split; [|split].
  - intros Hexp t. rewrite Hget.
    destruct Hexp as [-> | [-> | ->]]; [reflexivity | reflexivity |].
    cbn [truthy]. destruct (- now' =? 0) eqn:E0; cbn [negb]; [reflexivity|].
    change (default VUndefined _) with (VNum (now' + - now')). cbv zeta. cbn [truthy].
    destruct (now' + - now' =? 0) eqn:E1; [reflexivity | lia].
  - intros e -> He Hne t. split.
    + intros Hle. rewrite Hget. cbn [truthy].
      destruct (e =? 0) eqn:E0; [lia|]. cbn [negb].
      change (default VUndefined _) with (VNum (now' + e)). cbv zeta. cbn [truthy now_after].
      destruct (now' + e =? 0) eqn:E1; [lia|]. cbn [negb andb].
      destruct (t >? now' + e) eqn:E2; [lia | reflexivity].
    + intros Hlt. split.
      * rewrite Hget. cbn [truthy].
        destruct (e =? 0) eqn:E0; [lia|]. cbn [negb].
        change (default VUndefined _) with (VNum (now' + e)). cbv zeta. cbn [truthy now_after].
        destruct (now' + e =? 0) eqn:E1; [lia|]. cbn [negb andb].
        destruct (t >? now' + e) eqn:E2; [reflexivity | lia].
      * intros t'. unfold getStorage. rewrite lookup_delete_eq. reflexivity.
  - intros k Hk. rewrite Hls1. apply lookup_insert_ne. congruence.
Qed.

(** Text that does not parse, or an empty item, reads as [null] and is
    left in place. *)
Lemma getStorage_corrupted key (t : Z) ls text (e : value) :
  ls !! key = Some text -> JSON_parse text = Throw e ->
  getStorage' key t ls = (VNull, ls).
Proof.
  intros Hl Hp. unfold getStorage. rewrite Hl, Hp.
  destruct (negb (truthy (VStr text))); reflexivity.
Qed.

End StorageFacts.

Lemma setStorage_getStorage_witness :
  let ls1 :=
    setStorage stringify_record (fun _ _ => false) "theme" (VStr "dark") (Some 1000)
      5000 5000 ∅ in
  getStorage parse_record (fun _ => None) "theme" 6000 ls1 = (VStr "dark", ls1) /\
  getStorage parse_record (fun _ => None) "theme" 6001 ls1 = (VNull, delete "theme"%string ls1).
Proof.
  destruct (setStorage_getStorage stringify_record parse_record (fun _ _ => false)
              (fun _ => None) "theme" (VStr "dark") (Some 1000) 5000 5000 ∅ "theme-record")
    as (_ & H & _); [reflexivity | discriminate | reflexivity | reflexivity |].
  destruct (H 1000 eq_refl ltac:(lia) ltac:(lia) 6000) as [Hfresh _].
  destruct (H 1000 eq_refl ltac:(lia) ltac:(lia) 6001) as [_ Hexpired].
  split; [apply Hfresh; lia | apply Hexpired; lia].
Defined.

(** * Further properties of the client *)

(** ** Error messages *)

Lemma truthy_message_or (d : value) (fallback : string) (m : value) :
  fallback <> ""%string -> message_or d fallback = Normal m -> truthy m = true.
Proof.
  intros Hf. unfold message_or.
  destruct (get_prop d "message") as [v|e]; [|discriminate].
  destruct (truthy v) eqn:E; intros [= <-]; [exact E|].
  cbn. destruct (String.eqb_spec fallback ""); [contradiction | reflexivity].
Qed.

Lemma message_or_throws (d : value) (fallback : string) :
  (exists e, message_or d fallback = Throw e) <-> nullish d = true.
Proof.
  unfold message_or. split.
  - intros [e He]. destruct d; cbn in *; try reflexivity; discriminate.
  - intros Hn. destruct d; try discriminate; cbn; eauto.
Qed.

Lemma get_prop_defined (v : value) (k : string) :
  nullish v = false -> get_prop v k = Normal (get_prop_opt v k).
Proof. destruct v; (discriminate || reflexivity). Qed.

(** X14. [handleError] never returns an empty message: what it returns is
    truthy.  It throws instead of returning exactly when the error is
    [undefined] or [null], or carries a response without [data] whose
    status is not one of the eight that have a message of their own. *)
Theorem handleError_message (error : value) :
  (forall m : value, handleError error = Normal m -> truthy m = true) /\
  ((exists e : value, handleError error = Throw e) <->
   nullish error = true \/
   (truthy (get_prop_opt error "response") = true /\
    nullish (get_prop_opt (get_prop_opt error "response") "data") = true /\
    fixed_status (get_prop_opt (get_prop_opt error "response") "status") = false)).
Proof.
  destruct (nullish error) eqn:Hnull.
  { split.
    - intros m. destruct error; discriminate.
    - split; [auto|]. intros _. destruct error; try discriminate; cbn; eauto. }
  unfold handleError.
  rewrite (get_prop_defined error "response" Hnull).
  set (response := get_prop_opt error "response").
  destruct (truthy response) eqn:Htruthy.
  - rewrite !(get_prop_defined response) by (destruct response; discriminate || reflexivity).
    set (status := get_prop_opt response "status").
    set (d := get_prop_opt response "data").
    unfold fixed_status. cbn [existsb].
    assert (forall fallback : string, fallback <> ""%string ->
              (forall m, message_or d fallback = Normal m -> truthy m = true) /\
              ((exists e, message_or d fallback = Throw e) <->
               false = true \/ true = true /\ nullish d = true /\ false = false)) as Hmsg.
    { intros fallback Hf. split; [intros m; apply truthy_message_or; exact Hf|].
      rewrite message_or_throws. intuition discriminate. }
    assert (forall text : string,
              (forall m, Normal (VStr text) = Normal m -> text <> ""%string -> truthy m = true) /\
              ((exists e, @Normal value (VStr text) = Throw e) <->
               false = true \/ true = true /\ nullish d = true /\ true = false)) as Hfix.
    { intros text. split.
      - intros m [= <-] Hne. cbn. destruct (String.eqb_spec text ""); [contradiction|reflexivity].
      - split; [intros [e He]; discriminate | intuition discriminate]. }
    destruct status as [| |b|n|t|o]; cbn [strict_eq_num orb];
      try (apply Hmsg; discriminate).
    destruct (Z.eqb_spec n 400) as [->|H400]; [apply Hmsg; discriminate|].
    destruct (Z.eqb_spec n 401) as [->|H401];
      [split; [intros m Hm; eapply Hfix; [exact Hm|discriminate] | apply Hfix]|].
    destruct (Z.eqb_spec n 403) as [->|H403];
      [split; [intros m Hm; eapply Hfix; [exact Hm|discriminate] | apply Hfix]|].
    destruct (Z.eqb_spec n 404) as [->|H404];
      [split; [intros m Hm; eapply Hfix; [exact Hm|discriminate] | apply Hfix]|].
    destruct (Z.eqb_spec n 422) as [->|H422]; [apply Hmsg; discriminate|].
    destruct (Z.eqb_spec n 429) as [->|H429];
      [split; [intros m Hm; eapply Hfix; [exact Hm|discriminate] | apply Hfix]|].
    destruct (Z.eqb_spec n 500) as [->|H500];
      [split; [intros m Hm; eapply Hfix; [exact Hm|discriminate] | apply Hfix]|].
    destruct (Z.eqb_spec n 502) as [->|H502];
      [split; [intros m Hm; eapply Hfix; [exact Hm|discriminate] | apply Hfix]|].
    destruct (Z.eqb_spec n 503) as [->|H503];
      [split; [intros m Hm; eapply Hfix; [exact Hm|discriminate] | apply Hfix]|].
    destruct (Z.eqb_spec n 504) as [->|H504];
      [split; [intros m Hm; eapply Hfix; [exact Hm|discriminate] | apply Hfix]|].
    cbn [orb]. apply Hmsg. discriminate.
  - rewrite !(get_prop_defined error) by exact Hnull.
    split.
    + intros m. destruct (truthy (get_prop_opt error "request")); [intros [= <-]; reflexivity|].
      destruct (truthy (get_prop_opt error "message")) eqn:E; intros [= <-];
        [exact E | reflexivity].
    + split.
      * intros [e He]. destruct (truthy (get_prop_opt error "request")); discriminate.
      * intros [H|[H _]]; discriminate.
Qed.

(** ** The verbs *)

Section VerbFacts.

Variable JSON_stringify : value -> string.
Variable URLSearchParams_toString : value -> string.
Variable FormData_of : list (string * value) -> value.

Implicit Types (c : client) (d : decl) (net : network) (endpoint : string)
  (options : gmap string value).

(** X15. [post] with a [FormData] and no [headers] option (the default
    [options = {}], or [headers] given as [undefined] or [null]) is
    rejected with a [TypeError] before any interceptor or the transport is
    called, on every client and whatever the declaration of [config] in
    [request]. *)
Theorem post_FormData_without_headers d c net endpoint (fd : value) options :
  nullish (default VUndefined (options !! "headers"%string)) = true ->
  exists msg : string,
    post_with JSON_stringify d c net endpoint (Some (FormData fd)) options =
      (Rejected (TypeError msg), st c, []).
Proof.
  intros Hn. unfold post_with, post_config. cbn [default from_option id].
  assert ((options ∪ ({[ "method"%string := VStr "POST";
                         "body"%string := VStr (JSON_stringify (payload_value (FormData fd))) ]}
                      : gmap string value)) !! "headers"%string
          = options !! "headers"%string) as ->.
  { rewrite lookup_union. destruct (options !! "headers"%string); reflexivity. }
  destruct (options !! "headers"%string) as [[]|]; try discriminate; eauto.
Qed.

(** The config that [uploadFile] starts [request] with. *)
Lemma uploadFile_with_request d c net endpoint (file : value)
    (additionalData : list (string * value)) :
  exists config : gmap string value,
    uploadFile_with JSON_stringify FormData_of d c net endpoint file additionalData =
      request_with d c net endpoint config /\
    initial_config config =
      {[ "method"%string := VStr "POST";
         "body"%string := FormData_of (("file"%string, file) :: additionalData);
         "headers"%string := VObj ∅ ]}.
Proof.
  eexists. split.
  - unfold uploadFile_with, post_with, post_config. cbn [default from_option id].
    reflexivity.
  - unfold initial_config. apply map_eq. intros k.
    destruct (decide (k = "method"%string)) as [->|Hm]; [reflexivity|].
    destruct (decide (k = "body"%string)) as [->|Hb]; [reflexivity|].
    destruct (decide (k = "headers"%string)) as [->|Hh]; [reflexivity|].
    rewrite !lookup_union, !lookup_insert_ne, !lookup_union, !lookup_insert_ne by congruence.
    rewrite !lookup_singleton_ne by congruence. reflexivity.
Qed.

(** X16. On a client without request interceptors, [uploadFile] calls the
    transport once, with the method [POST], the form as the body and an
    empty headers object: neither the default [Content-Type] nor the
    default [Accept] is sent. *)
Theorem uploadFile_transport_config c net endpoint (file : value)
    (additionalData : list (string * value)) :
  requestInterceptors c = [] ->
  fetch_calls (uploadFile JSON_stringify FormData_of c net endpoint file additionalData).2 =
    [(baseUrl (st c) +:+ endpoint,
      VObj {[ "method"%string := VStr "POST";
              "body"%string := FormData_of (("file"%string, file) :: additionalData);
              "headers"%string := VObj ∅ ]})].
Proof.
  intros Hl.
  destruct (uploadFile_with_request Const c net endpoint file additionalData)
    as [config [Heq Hconfig]].
  unfold uploadFile. rewrite Heq. change (request_with Const) with request.
  rewrite (request_no_interceptor_fetches c net endpoint config Hl), Hconfig.
  reflexivity.
Qed.

Lemma request_blocked c (l : list requestInterceptor) net endpoint options :
  requestInterceptors c = auth_interceptor :: l ->
  blocked (request c net endpoint options) (st c).
Proof.
  intros Hl. rewrite (request_const_rejects c _ _ net endpoint options Hl).
  rewrite auth_interceptor_store. unfold blocked. cbn. eauto.
Qed.

Lemma post_blocked c (l : list requestInterceptor) net endpoint (data : option payload)
    options :
  requestInterceptors c = auth_interceptor :: l ->
  blocked (post JSON_stringify c net endpoint data options) (st c).
Proof.
  intros Hl. unfold post, post_with.
  destruct (post_config _ _ _) as [config|e].
  - apply (request_blocked c l net endpoint config Hl).
  - unfold blocked. cbn. eauto.
Qed.

Variable AuthController_logout : option (store -> store).

(** X17. Once the script has run, and whatever the page has called since,
    every verb of the client ([get], [post], [put], [patch], [delete],
    [uploadFile]) is rejected, leaves the client as it was and never
    reaches the transport. *)
Theorem verbs_after_init (ls : gmap string string) (href : string) ops net endpoint
    (params : value) (data : option payload) (body : option value) options (file : value)
    (additionalData : list (string * value)) :
  let c := run_ops AuthController_logout JSON_stringify URLSearchParams_toString
             (loaded AuthController_logout ls href) ops in
  blocked (get URLSearchParams_toString c net endpoint params) (st c) /\
  blocked (post JSON_stringify c net endpoint data options) (st c) /\
  blocked (put JSON_stringify c net endpoint body options) (st c) /\
  blocked (patch JSON_stringify c net endpoint body options) (st c) /\
  blocked (delete_ c net endpoint options) (st c) /\
  blocked (uploadFile JSON_stringify FormData_of c net endpoint file additionalData) (st c).
Proof.
  intros c.
  destruct (loaded_lists AuthController_logout JSON_stringify URLSearchParams_toString
              ls href ops) as [[l Hl] _].
  fold c in Hl.
  split; [apply (request_blocked c l); exact Hl|].
  split; [apply (post_blocked c l); exact Hl|].
  split; [apply (request_blocked c l); exact Hl|].
  split; [apply (request_blocked c l); exact Hl|].
  split; [apply (request_blocked c l); exact Hl|].
  apply (post_blocked c l). exact Hl.
Qed.

End VerbFacts.

Lemma post_FormData_without_headers_witness :
  exists msg : string,
    post_with stringify_sample Const (bare []) online "/upload"
      (Some (FormData (VStr "form"))) ∅ =
      (Rejected (TypeError msg), st (bare []), []).
Proof.
  apply (post_FormData_without_headers stringify_sample Const (bare []) online "/upload"
           (VStr "form") ∅).
  reflexivity.
Defined.

Lemma uploadFile_transport_config_witness :
  fetch_calls (uploadFile stringify_sample form_sample (bare []) online "/upload"
                 (VStr "photo") [("album"%string, VStr "summer")]).2 =
    [(baseUrl (st (bare [])) +:+ "/upload",
      VObj {[ "method"%string := VStr "POST";
              "body"%string :=
                form_sample [("file"%string, VStr "photo"); ("album"%string, VStr "summer")];
              "headers"%string := VObj ∅ ]})].
Proof.
  apply (uploadFile_transport_config stringify_sample form_sample (bare []) online "/upload"
           (VStr "photo") [("album"%string, VStr "summer")]).
  reflexivity.
Defined.

(** * Properties of the authentication flows *)

Section Envelopes.

Variable AuthController_logout : option (store -> store).

Implicit Types (c : client) (d : decl) (net : network) (endpoint : string)
  (options : gmap string value).

Lemma fetch_phase_envelope net (url : string) (config response : value) :
  fetch_phase net url config = Normal response -> envelope response.
Proof.
  unfold fetch_phase. destruct (net url config) as [r|e]; [|discriminate].
  destruct (parse_body r) as [v|e]; [|discriminate].
  intros [= <-]. exists r, v. reflexivity.
Qed.

(** Behind the built-in response interceptor a call resolves with the
    response object only. *)
Lemma request_with_builtin_resolved d c (l : list responseInterceptor) net endpoint options
    (v : value) :
  responseInterceptors c = builtin_interceptor AuthController_logout :: l ->
  (request_with d c net endpoint options).1.1 = Resolved v ->
  envelope v.
Proof.
  intros Hl. unfold request_with. cbv zeta.
  destruct (apply_request_interceptors _ _ _ _) as [[[config|e] s1] tr1]; [|discriminate].
  rewrite Hl. cbn [fulfilled_loop catch_block builtin_interceptor onFulfilled onRejected].
  destruct (fetch_phase _ _ _) as [response|error] eqn:Hfetch.
  - unfold builtin_onFulfilled. cbn. intros [= <-].
    apply (fetch_phase_envelope _ _ _ _ Hfetch).
  - unfold builtin_onRejected.
    destruct (get_prop error "response") as [response|e]; cbn; discriminate.
Qed.

Lemma envelope_success (v : value) : envelope v -> get_prop v "success" = Normal VUndefined.
Proof. intros (r & d & ->). reflexivity. Qed.

Lemma envelope_message (v : value) : envelope v -> get_prop_opt v "message" = VUndefined.
Proof. intros (r & d & ->). reflexivity. Qed.

End Envelopes.

Section AuthFlows.

Import App.

Variable AuthController_logout : option (store -> store).
Variables JSON_stringify URLSearchParams_toString : value -> string.
Variable document_throws : value -> option value.

#[local] Abbreviation page_after ls href ops :=
  (run_ops AuthController_logout JSON_stringify URLSearchParams_toString
     (loaded AuthController_logout ls href) ops).

Implicit Types (c : client) (d : decl) (net : network) (a : app)
  (ls : gmap string string) (href : string) (ops : list op).

Lemma post_with_builtin_resolved d c (l : list responseInterceptor) net (endpoint : string)
    (data : option payload) (options : gmap string value) (v : value) :
  responseInterceptors c = builtin_interceptor AuthController_logout :: l ->
  (post_with JSON_stringify d c net endpoint data options).1.1 = Resolved v ->
  envelope v.
Proof.
  intros Hl. unfold post_with. destruct (post_config _ _ _) as [config|e].
  - apply (request_with_builtin_resolved AuthController_logout d c l net endpoint config v Hl).
  - cbn. discriminate.
Qed.

(** X18. Once the script has run, [login] never succeeds: it returns
    [false], leaves the current user as it was and shows one error, also
    when the server accepts the credentials, because the client resolves
    with the response object, which has no [success] property.  As the
    code stands ([config] a [const]) the server is not even asked: the
    error shown is the generic one and the storage is left as it was. *)
Theorem login_after_init ls href ops d a net (credentials : value) :
  let c := page_after ls href ops in
  let r := login JSON_stringify d document_throws a c net credentials in
  r.1.1.1 = false /\
  currentUser r.1.1.2 = currentUser a /\
  (exists message : value, ui r.1.1.2 = ui a ++ [ShowError message]) /\
  (d = Const ->
   r.1.1.2 = login_failed a /\ r.1.2 = st c /\ fetch_calls r.2 = []).
Proof.
  intros c r.
  destruct (loaded_lists AuthController_logout JSON_stringify URLSearchParams_toString
              ls href ops) as [[l1 Hreq] [l Hl]].
  fold c in Hreq, Hl.
  subst r. unfold login.
  set (data := match credentials with VUndefined => None | _ => Some (JsonData credentials) end).
  pose proof (post_with_builtin_resolved d c l net "/auth/login" data ∅) as Henv.
  pose proof (post_blocked JSON_stringify c l1 net "/auth/login" data ∅ Hreq) as Hblocked.
  unfold post in Hblocked.
  destruct (post_with JSON_stringify d c net "/auth/login" data ∅) as [[res s1] tr] eqn:Hpost.
  destruct res as [response|e].
  - specialize (Henv response Hl eq_refl).
    rewrite (envelope_success response Henv). cbn [truthy].
    rewrite (envelope_message response Henv). cbn.
    split; [reflexivity|]. split; [reflexivity|]. split; [eauto|].
    intros ->. rewrite Hpost in Hblocked. destruct Hblocked as [[e He] _]. discriminate.
  - cbn. split; [reflexivity|]. split; [reflexivity|]. split; [eauto|].
    intros ->. rewrite Hpost in Hblocked. destruct Hblocked as [_ [Hs Hf]].
    cbn in Hs, Hf. auto.
Qed.

(** X19. [logout] always ends with no current user, no [authToken] and no
    [user] entry in the storage, and the location set to [../index.html],
    whatever the call to the server does.  It does not reset the token
    that the client holds in memory; as the code stands ([config] a
    [const]) the server is never told, and the other entries of the
    storage are left as they were. *)
Theorem logout_clears_session ls href ops d a net :
  let c := page_after ls href ops in
  let r := logout JSON_stringify d a c net in
  currentUser r.1.1 = VNull /\
  localStorage r.1.2 !! "authToken"%string = None /\
  localStorage r.1.2 !! "user"%string = None /\
  location_href r.1.2 = "../index.html"%string /\
  (d = Const ->
   authToken r.1.2 = authToken (st c) /\
   fetch_calls r.2 = [] /\
   forall k : string,
     k <> "authToken"%string -> k <> "user"%string ->
     localStorage r.1.2 !! k = localStorage (st c) !! k).
Proof.
  intros c r.
  destruct (loaded_lists AuthController_logout JSON_stringify URLSearchParams_toString
              ls href ops) as [[l1 Hreq] _].
  fold c in Hreq.
  pose proof (post_blocked JSON_stringify c l1 net "/auth/logout" None ∅ Hreq) as Hblocked.
  unfold post in Hblocked.
  subst r. unfold logout.
  destruct (post_with JSON_stringify d c net "/auth/logout" None ∅) as [[res s1] tr] eqn:Hpost.
  cbn.
  split; [reflexivity|].
  split; [rewrite lookup_delete_ne by discriminate; apply lookup_delete_eq|].
  split; [apply lookup_delete_eq|].
  split; [reflexivity|].
  intros ->. rewrite Hpost in Hblocked. destruct Hblocked as [_ [Hs Hf]].
  cbn in Hs, Hf. subst s1.
  split; [reflexivity|]. split; [exact Hf|].
  intros k Hk1 Hk2. rewrite !lookup_delete_ne by congruence. reflexivity.
Qed.

(** X20. Once the script has run, [initializeAuth] does nothing when the
    storage holds no token (or an empty one), and with a stored token it
    always ends by starting [logout], without having set the current user
    or touched the page: a stored session is never resumed. *)
Theorem initializeAuth_after_init ls href ops d a net :
  let c := page_after ls href ops in
  let r := initializeAuth URLSearchParams_toString d document_throws a c net in
  match localStorage (st c) !! "authToken"%string with
  | Some token =>
      if truthy (VStr token) then r.1.1.1 = StartsLogout /\ r.1.1.2 = a
      else r = (NoToken, a, st c, [])
  | None => r = (NoToken, a, st c, [])
  end.
Proof.
  intros c r.
  destruct (loaded_lists AuthController_logout JSON_stringify URLSearchParams_toString
              ls href ops) as [_ [l Hl]].
  fold c in Hl.
  subst r. unfold initializeAuth.
  destruct (localStorage (st c) !! "authToken"%string) as [token|]; [|reflexivity].
  destruct (truthy (VStr token)); [|reflexivity].
  unfold get_with.
  match goal with
  | |- context [request_with d c net ?url ?options] =>
      pose proof (request_with_builtin_resolved AuthController_logout d c l net url options)
        as Henv;
      destruct (request_with d c net url options) as [[res s1] tr]
  end.
  destruct res as [response|e]; [|split; reflexivity].
  specialize (Henv response Hl eq_refl).
  rewrite (envelope_success response Henv). split; reflexivity.
Qed.

End AuthFlows.

Lemma login_after_init_witness :
  let r := App.login stringify_sample Const (fun _ => None) signed_off session_page online
             (VObj {[ "email"%string := VStr "ann@example.org" ]}) in
  r.1.1.1 = false /\
  r.1.1.2 = App.login_failed signed_off /\
  r.1.2 = st session_page /\
  fetch_calls r.2 = [].
Proof.
  destruct (login_after_init None stringify_sample query_sample (fun _ => None)
              session_storage "/pages/home.html" [] Const signed_off online
              (VObj {[ "email"%string := VStr "ann@example.org" ]}))
    as (Hfalse & _ & _ & Hconst).
  destruct (Hconst eq_refl) as (Happ & Hstore & Hfetch).
  split; [exact Hfalse|]. split; [exact Happ|]. split; [exact Hstore | exact Hfetch].
Defined.

Lemma logout_clears_session_witness :
  let r := App.logout stringify_sample Const signed_off session_page online in
  localStorage r.1.2 !! "authToken"%string = None /\
  location_href r.1.2 = "../index.html"%string /\
  authToken r.1.2 = Some "abc"%string /\
  localStorage r.1.2 !! "theme"%string = Some "dark"%string.
Proof.
  destruct (logout_clears_session None stringify_sample query_sample
              session_storage "/pages/home.html" [] Const signed_off online)
    as (_ & Htoken & _ & Hhref & Hconst).
  destruct (Hconst eq_refl) as (Hmemory & _ & Hothers).
  split; [exact Htoken|]. split; [exact Hhref|].
  split; [exact (eq_trans Hmemory eq_refl)|].
  exact (eq_trans (Hothers "theme"%string ltac:(discriminate) ltac:(discriminate)) eq_refl).
Defined.

Lemma initializeAuth_after_init_witness :
  let r := App.initializeAuth query_sample Let (fun _ => None) signed_off session_page online in
  r.1.1.1 = App.StartsLogout /\ r.1.1.2 = signed_off.
Proof.
  apply (initializeAuth_after_init None stringify_sample query_sample (fun _ => None)
           session_storage "/pages/home.html" [] Let signed_off online).
Defined.

(** * Further properties of the cache and of the retries *)

(** X21. The entries of the cache are independent: writing one key does not
    change what a read of another key returns, a read (which may evict the
    entry it reads) leaves every other entry in place, and a second write
    of a key replaces the first, its timestamp and its time to live. *)
Theorem cache_keys_independent (key key' : string) (v v' : value) (timeout timeout' : option Z)
    (now now' t : Z) (s : store) :
  key <> key' ->
  (getCache key' t (setCache key v timeout now s)).1 = (getCache key' t s).1 /\
  cache (getCache key t s).2 !! key' = cache s !! key' /\
  setCache key v' timeout' now' (setCache key v timeout now s) =
    setCache key v' timeout' now' s.
Proof.
  intros Hne. split; [|split].
  - unfold getCache, setCache. rewrite cache_set_cache, lookup_insert_ne by exact Hne.
    destruct (cache s !! key') as [cached|]; [|reflexivity].
    destruct (t - timestamp cached >? ApiClient.timeout cached); reflexivity.
  - unfold getCache. destruct (cache s !! key) as [cached|]; [|reflexivity].
    destruct (t - timestamp cached >? ApiClient.timeout cached); [|reflexivity].
    cbn [snd]. rewrite cache_set_cache. apply lookup_delete_ne. exact Hne.
  - unfold setCache. rewrite cache_set_cache, set_cache_set_cache, insert_insert_eq.
    reflexivity.
Qed.

Lemma cache_keys_independent_witness :
  (getCache "b" 50 (setCache "a" (VNum 1) None 0 (st (bare [])))).1 =
    (getCache "b" 50 (st (bare []))).1 /\
  cache (getCache "a" 50 (st (bare []))).2 !! "b"%string = cache (st (bare [])) !! "b"%string /\
  setCache "a" (VNum 2) (Some 10) 5 (setCache "a" (VNum 1) None 0 (st (bare []))) =
    setCache "a" (VNum 2) (Some 10) 5 (st (bare [])).
Proof.
  apply (cache_keys_independent "a" "b" (VNum 1) (VNum 2) None (Some 10) 0 5 50 (st (bare []))).
  discriminate.
Defined.

Section RetryBounds.

Context {W : Type} (requestFn : W -> settled * W) (maxRetries delay : Z).

(** Whatever the callable does, the trace is a back-off trace. *)
Lemma retry_loop_trace (n : nat) :
  forall (i : Z) (w : W),
    Z.to_nat (maxRetries - i) = n ->
    exists k : nat,
      (k <= n)%nat /\ (i < maxRetries -> (1 <= k)%nat) /\
      (retry_loop requestFn maxRetries delay i w).2 = backoff_trace delay i k.
Proof.
  induction n as [|n IH]; intros i w Hn.
  - exists 0%nat. rewrite retry_loop_exit by lia.
    split; [lia|]. split; [lia | reflexivity].
  - destruct (requestFn w) as [[v|e] w1] eqn:Hfn.
    + exists 1%nat. rewrite (retry_loop_success _ _ _ i w w1 v) by (lia || assumption).
      split; [lia|]. split; [lia | reflexivity].
    + destruct (decide (i = maxRetries - 1)) as [Hlast|Hmore].
      * exists 1%nat. rewrite (retry_loop_last _ _ _ i w w1 e) by (lia || assumption).
        split; [lia|]. split; [lia | reflexivity].
      * destruct (IH (i + 1) w1) as (k & Hk & Hpos & Htr); [lia|].
        exists (S k). rewrite (retry_loop_again _ _ _ i w w1 e) by (lia || assumption).
        destruct (retry_loop requestFn maxRetries delay (i + 1) w1) as [[r w2] tr].
        cbn [snd] in *. subst tr.
        split; [lia|]. split; [lia|].
        destruct k as [|k]; [lia | reflexivity].
Qed.

End RetryBounds.

Lemma backoff_trace_total (delay : Z) (k : nat) :
  forall i : Z,
    0 <= i ->
    total (sleeps (backoff_trace delay i (S k))) =
      delay * (2 ^ (i + Z.of_nat k) - 2 ^ i).
Proof.
  induction k as [|k IH]; intros i Hi.
  - cbn. rewrite Z.add_0_r. lia.
  - change (backoff_trace delay i (S (S k)))
      with (Attempt i :: Sleep (delay * 2 ^ i) :: backoff_trace delay (i + 1) (S k)).
    unfold sleeps in *. cbn [omap list_omap]. unfold total in *. cbn [foldr].
    rewrite (IH (i + 1)) by lia.
    replace (i + Z.of_nat (S k)) with (Z.succ (i + Z.of_nat k)) by lia.
    replace (i + 1 + Z.of_nat k) with (Z.succ (i + Z.of_nat k)) by lia.
    replace (i + 1) with (Z.succ i) by lia.
    rewrite !Z.pow_succ_r by lia. lia.
Qed.

(** X22. Whatever the callable does, [retryRequest] invokes it at most
    [maxRetries] times, sleeps between two invocations only, each sleep
    twice the one before starting from [delay], and so waits
    [delay * (2 ^ (k - 1) - 1)] in all when it has made [k] invocations. *)
Theorem retryRequest_total_wait {W : Type} (requestFn : W -> settled * W)
    (maxRetries delay : option Z) (w : W) :
  let tr := (retryRequest requestFn maxRetries delay w).2 in
  let k := invocations tr in
  Z.of_nat k <= Z.max 0 (default 3 maxRetries) /\
  tr = backoff_trace (default 1000 delay) 0 k /\
  total (sleeps tr) = default 1000 delay * (2 ^ Z.of_nat (k - 1) - 1).
Proof.
  intros tr k. subst k tr. unfold retryRequest.
  destruct (retry_loop_trace requestFn (default 3 maxRetries) (default 1000 delay)
              (Z.to_nat (default 3 maxRetries - 0)) 0 w eq_refl) as (k & Hk & _ & Htr).
  rewrite Htr, backoff_trace_invocations.
  split; [lia|]. split; [reflexivity|].
  destruct k as [|k]; [cbn; lia|].
  rewrite backoff_trace_total by lia.
  replace (Z.of_nat (S k - 1)) with (Z.of_nat k) by lia.
  rewrite Z.add_0_l. reflexivity.
Qed.
